(** * train_model_old.py: transfer-learning script for a mask / no-mask classifier

    A shallow embedding of the script's own logic: command-line parsing,
    the image-loading loop, label encoding, the trainer's step counts, the
    optimizer and augmenter configuration, and the freezing of the backbone.

    The script is a sequence of library calls.  Where a property depends
    on what a call returns, the call is modelled as its library defines
    it on the arguments the script passes: [argparse], [os.walk] and
    [imutils.paths], scikit-learn's [LabelBinarizer], Keras's
    [to_categorical], NumPy's [argmax], and the Keras rules that only
    trainable layers are updated and that [decay] is time-based decay.

    Conventions.
    - Python [int] is [Z]; [//] is floor division, which is [Z.div] for a
      positive divisor.
    - Python [float] literals are read as the exact rationals they denote
      ([Q]); nothing below depends on rounding.
    - Python [str] is [string], the bytes of its UTF-8 encoding; a [dict]
      with string keys is a [gmap].
    - An uncaught exception or [SystemExit] is an explicit error result. *)

From Stdlib Require Import ZArith QArith Lia Lqa Ascii Sorted.
From stdpp Require Import base option list gmap strings.

Open Scope string_scope.
Open Scope list_scope.
Open Scope Z_scope.

(** ** Exceptions that reach the process boundary *)

Inductive py_error : Type :=
| IndexError
| ValueError
| ZeroDivisionError
| LoadError.

Inductive result (A : Type) : Type :=
| Ok (a : A)
| Raise (e : py_error).
Arguments Ok {A} a.
Arguments Raise {A} e.

#[global] Instance result_ret : MRet result := @Ok.

#[global] Instance result_bind : MBind result := fun A B k r =>
  match r with
  | Ok a => k a
  | Raise e => Raise e
  end.

#[global] Instance result_fmap : FMap result := fun A B f r =>
  match r with
  | Ok a => Ok (f a)
  | Raise e => Raise e
  end.

(** ** Hyperparameters (lines 41-43) *)

Definition learning_rate : Q := 1 # 1000.
Definition EPOCHS : Z := 20.
Definition BS : Z := 32.

(** [len(xs)] *)
Definition len {A} (xs : list A) : Z := Z.of_nat (length xs).

(** [a // b] on Python integers. *)
Definition floordiv (a b : Z) : result Z :=
  if b =? 0 then Raise ZeroDivisionError else Ok (a / b).

Module Trainer.

(** The keyword arguments the script computes for [model.fit]
    (lines 122-128). *)
Record fit_args : Type := {
  steps_per_epoch : Z;
  validation_steps : Z;
  epochs : Z
}.

Definition fit_call {A B} (X_train : list A) (X_test : list B)
  : result fit_args :=
  s ← floordiv (len X_train) BS;
  v ← floordiv (len X_test) BS;
  Ok {| steps_per_epoch := s; validation_steps := v; epochs := EPOCHS |}.

End Trainer.

Module Optimizer.

(** [Adam(lr = learning_rate, decay = learning_rate / EPOCHS)] (line 116). *)
Record adam : Type := { lr : Q; decay : Q }.

Definition opt : adam :=
  {| lr := learning_rate; decay := (learning_rate / inject_Z EPOCHS)%Q |}.

(** The [decay] argument of the Keras optimizers is time-based decay:
    after [t] parameter updates (one per batch) the rate in effect is
    [lr * 1 / (1 + decay * t)]. *)
Definition decayed_lr (o : adam) (t : nat) : Q :=
  (lr o * (1 / (1 + decay o * inject_Z (Z.of_nat t))))%Q.

(** What a linear schedule over the run would be: an affine function of
    the number of updates done. *)
Definition linear_schedule (f : nat -> Q) : Prop :=
  exists a b : Q, forall t : nat, (f t == a + b * inject_Z (Z.of_nat t))%Q.

End Optimizer.

Module Augmenter.

Inductive fill : Type := constant | nearest | reflect | wrap.

(** The augmentation parameters of [ImageDataGenerator]. *)
Record ImageDataGenerator : Type := {
  rotation_range : Q;
  width_shift_range : Q;
  height_shift_range : Q;
  brightness_range : option (Q * Q);
  shear_range : Q;
  zoom_range : Q;
  channel_shift_range : Q;
  fill_mode : fill;
  horizontal_flip : bool;
  vertical_flip : bool
}.

(** The constructor's defaults: no augmentation at all. *)
Definition defaults : ImageDataGenerator := {|
  rotation_range := 0;
  width_shift_range := 0;
  height_shift_range := 0;
  brightness_range := None;
  shear_range := 0;
  zoom_range := 0;
  channel_shift_range := 0;
  fill_mode := nearest;
  horizontal_flip := false;
  vertical_flip := false
|}.

(** Lines 82-90: seven keyword arguments, the rest left at the defaults. *)
Definition train_transformations : ImageDataGenerator := {|
  rotation_range := 15;
  width_shift_range := 2 # 10;
  height_shift_range := 2 # 10;
  brightness_range := brightness_range defaults;
  shear_range := 10 # 100;
  zoom_range := 10 # 100;
  channel_shift_range := channel_shift_range defaults;
  fill_mode := nearest;
  horizontal_flip := true;
  vertical_flip := vertical_flip defaults
|}.

(** A scalar [zoom_range] [z] stands for the interval [[1 - z, 1 + z]]. *)
Definition zoom_interval (g : ImageDataGenerator) : Q * Q :=
  ((1 - zoom_range g)%Q, (1 + zoom_range g)%Q).

End Augmenter.

(** ** Command line (lines 29-37)

    [argparse] as the script uses it: every declared option is a [store]
    action taking one argument, [ArgumentParser()] adds [-h/--help], and
    there are no positional arguments.  [parse_args] either returns a
    namespace or ends the process ([SystemExit]: status 0 after printing
    the help, status 2 after a usage error).

    A Python [str] is held as the bytes of its UTF-8 encoding; the
    operations the parser uses on strings (equality, [startswith],
    [split] and [in] on ASCII characters) act the same way on the bytes.
    The one place where characters matter is the class [\d] of the
    negative-number pattern, for which the bytes are decoded. *)

Module Cli.

Inductive action : Type := store | help.

Record argument : Type := {
  option_strings : list string;
  dest : string;
  act : action;
  required : bool;
  default : option string
}.

(** [ArgumentParser()] declares the help option. *)
Definition help_option : argument :=
  {| option_strings := ["-h"; "--help"]; dest := "help"; act := help;
     required := false; default := None |}.

(** Lines 30-31 *)
Definition dataset_option : argument :=
  {| option_strings := ["-d"; "--dataset"]; dest := "dataset"; act := store;
     required := true; default := None |}.

(** Lines 32-33 *)
Definition plot_option : argument :=
  {| option_strings := ["-p"; "--plot"]; dest := "plot"; act := store;
     required := false; default := Some "plots/plot.png" |}.

(** Lines 34-36 *)
Definition model_option : argument :=
  {| option_strings := ["-m"; "--model"]; dest := "model"; act := store;
     required := false; default := Some "face_mask_detector.model" |}.

(** The parser after the three [add_argument] calls. *)
Definition ap : list argument :=
  [help_option; dataset_option; plot_option; model_option].

(** [parser._option_string_actions], in insertion order. *)
Definition option_string_actions (p : list argument)
  : list (string * argument) :=
  a ← p; (fun s => (s, a)) <$> option_strings a.

Definition find_option (p : list argument) (s : string) : option argument :=
  snd <$> List.find (fun sa => String.eqb (fst sa) s) (option_string_actions p).

(** [s.split(c, 1)] when [c] occurs in [s]. *)
Fixpoint split_at (c : ascii) (s : string) : option (string * string) :=
  match s with
  | EmptyString => None
  | String x r =>
      if Ascii.eqb x c then Some (EmptyString, r)
      else '(a, b) ← split_at c r; Some (String x a, b)
  end.

Fixpoint mem_char (c : ascii) (s : string) : bool :=
  match s with
  | EmptyString => false
  | String x r => Ascii.eqb x c || mem_char c r
  end.

Definition nonempty (s : string) : bool :=
  match s with EmptyString => false | _ => true end.

(** A continuation byte of UTF-8. *)
Definition continuation (b : N) : bool := ((128 <=? b) && (b <=? 191))%N.

(** The characters of a string, as code points.  A byte that is not part
    of a well-formed sequence stands for itself as the lone surrogate
    [0xDC00 + byte], which is how [sys.argv] holds it. *)
Fixpoint code_points (s : string) : list N :=
  match s with
  | EmptyString => []
  | String a r =>
      let b0 := N_of_ascii a in
      let escaped := (56320 + b0)%N :: code_points r in
      if (b0 <? 128)%N then b0 :: code_points r
      else if (b0 <? 194)%N then escaped
      else if (b0 <? 224)%N then
        match r with
        | String a1 r1 =>
            let b1 := N_of_ascii a1 in
            if continuation b1
            then ((b0 - 192) * 64 + (b1 - 128))%N :: code_points r1
            else escaped
        | _ => escaped
        end
      else if (b0 <? 240)%N then
        match r with
        | String a1 (String a2 r2) =>
            let b1 := N_of_ascii a1 in
            let b2 := N_of_ascii a2 in
            if continuation b1 && continuation b2
               && negb ((b0 =? 224) && (b1 <? 160))%N
               && negb ((b0 =? 237) && (160 <=? b1))%N
            then ((b0 - 224) * 4096 + (b1 - 128) * 64 + (b2 - 128))%N
                 :: code_points r2
            else escaped
        | _ => escaped
        end
      else if (b0 <? 245)%N then
        match r with
        | String a1 (String a2 (String a3 r3)) =>
            let b1 := N_of_ascii a1 in
            let b2 := N_of_ascii a2 in
            let b3 := N_of_ascii a3 in
            if continuation b1 && continuation b2 && continuation b3
               && negb ((b0 =? 240) && (b1 <? 144))%N
               && negb ((b0 =? 244) && (144 <=? b1))%N
            then ((b0 - 240) * 262144 + (b1 - 128) * 4096
                  + (b2 - 128) * 64 + (b3 - 128))%N
                 :: code_points r3
            else escaped
        | _ => escaped
        end
      else escaped
  end.

(** The decimal digits of Unicode 14.0 (general category Nd), the class
    [\d] of a [str] pattern in CPython 3.11: first and last code point
    of each run. *)
Definition decimal_ranges : list (N * N) :=
  [(48, 57); (1632, 1641); (1776, 1785); (1984, 1993); (2406, 2415);
   (2534, 2543); (2662, 2671); (2790, 2799); (2918, 2927); (3046, 3055);
   (3174, 3183); (3302, 3311); (3430, 3439); (3558, 3567); (3664, 3673);
   (3792, 3801); (3872, 3881); (4160, 4169); (4240, 4249); (6112, 6121);
   (6160, 6169); (6470, 6479); (6608, 6617); (6784, 6793); (6800, 6809);
   (6992, 7001); (7088, 7097); (7232, 7241); (7248, 7257); (42528, 42537);
   (43216, 43225); (43264, 43273); (43472, 43481); (43504, 43513);
   (43600, 43609); (44016, 44025); (65296, 65305); (66720, 66729);
   (68912, 68921); (69734, 69743); (69872, 69881); (69942, 69951);
   (70096, 70105); (70384, 70393); (70736, 70745); (70864, 70873);
   (71248, 71257); (71360, 71369); (71472, 71481); (71904, 71913);
   (72016, 72025); (72784, 72793); (73040, 73049); (73120, 73129);
   (92768, 92777); (92864, 92873); (93008, 93017); (120782, 120831);
   (123200, 123209); (123632, 123641); (125264, 125273);
   (130032, 130041)]%N.

Definition is_decimal (c : N) : bool :=
  existsb (fun r => (fst r <=? c) && (c <=? snd r))%N decimal_ranges.

(** [$] matches at the end and also just before a final newline. *)
Fixpoint before_final_newline (l : list N) : list N :=
  match l with
  | [] => []
  | c :: r =>
      match r with
      | [] => if (c =? 10)%N then [] else [c]
      | _ => c :: before_final_newline r
      end
  end.

Fixpoint split_points (c : N) (l : list N) : option (list N * list N) :=
  match l with
  | [] => None
  | x :: r =>
      if (x =? c)%N then Some ([], r)
      else '(a, b) ← split_points c r; Some (x :: a, b)
  end.

Definition some_points (l : list N) : bool :=
  match l with [] => false | _ => true end.

(** The parser's pattern for negative numbers,
    [^-\d+$|^-\d*\.\d+$], under [match]. *)
Definition negative_number_like (s : string) : bool :=
  match before_final_newline (code_points s) with
  | 45%N :: r =>
      (some_points r && forallb is_decimal r)
      || match split_points 46 r with
         | Some (a, b) =>
             forallb is_decimal a && some_points b && forallb is_decimal b
         | None => false
         end
  | _ => false
  end.

(** How one command-line string is read. *)
Inductive resolution : Type :=
| Positional
| Flag (a : argument) (option_string : string) (explicit_arg : option string)
| Unknown
| Ambiguous.

(** [_get_option_tuples]: abbreviations of long options, and a short
    option with its argument attached. *)
Definition get_option_tuples (p : list argument) (arg_string : string)
  : list (argument * string * option string) :=
  match arg_string with
  | String "-" (String "-" _) =>
      let '(option_prefix, explicit_arg) :=
        match split_at "=" arg_string with
        | Some (o, e) => (o, Some e)
        | None => (arg_string, None)
        end in
      omap (fun sa : string * argument =>
              if String.prefix option_prefix (fst sa)
              then Some (snd sa, fst sa, explicit_arg) else None)
           (option_string_actions p)
  | String "-" (String c rest) =>
      let short_option_prefix := String "-" (String c EmptyString) in
      omap (fun sa : string * argument =>
              if String.eqb (fst sa) short_option_prefix
              then Some (snd sa, fst sa, Some rest)
              else if String.prefix arg_string (fst sa)
              then Some (snd sa, fst sa, None) else None)
           (option_string_actions p)
  | _ => []
  end.

(** [_parse_optional]. *)
Definition parse_optional (p : list argument) (arg_string : string)
  : resolution :=
  match arg_string with
  | EmptyString => Positional
  | String c r =>
      if negb (Ascii.eqb c "-") then Positional else
      match find_option p arg_string with
      | Some a => Flag a arg_string None
      | None =>
          if nonempty r then
            let by_equals :=
              '(o, e) ← split_at "=" arg_string;
              a ← find_option p o; Some (a, o, e) in
            match by_equals with
            | Some (a, o, e) => Flag a o (Some e)
            | None =>
                match get_option_tuples p arg_string with
                | _ :: _ :: _ => Ambiguous
                | [(a, o, e)] => Flag a o e
                | [] =>
                    if negative_number_like arg_string then Positional
                    else if mem_char " " arg_string then Positional
                    else Unknown
                end
            end
          else Positional
      end
  end.

(** The argument pattern: [A] for a positional string, [-] for the [--]
    separator, [O] for an option string. *)
Inductive token : Type :=
| TA (s : string)
| TDash
| TO (o : option (argument * string * option string)).

(** [None] is the usage error for an ambiguous abbreviation, raised while
    the pattern is built. *)
Fixpoint classify (p : list argument) (arg_strings : list string)
  : option (list token) :=
  match arg_strings with
  | [] => Some []
  | s :: rest =>
      if String.eqb s "--" then Some (TDash :: (TA <$> rest))
      else match parse_optional p s with
           | Ambiguous => None
           | Positional => cons (TA s) <$> classify p rest
           | Flag a o e => cons (TO (Some (a, o, e))) <$> classify p rest
           | Unknown => cons (TO None) <$> classify p rest
           end
  end.

(** What an attribute of the namespace can hold here: [None], a string,
    or a list of strings. *)
Inductive value : Type :=
| PyNone
| PyStr (s : string)
| PyList (l : list string).

Inductive outcome : Type :=
| Parsed (args : gmap string value)
| Exit (status : Z).

Record state : Type := {
  namespace : gmap string value;
  seen_actions : gset string;
  extras : bool
}.

(** [l.remove(x)] where a missing [x] is passed over. *)
Fixpoint remove_first (x : string) (l : list string) : list string :=
  match l with
  | [] => []
  | y :: r => if String.eqb y x then r else y :: remove_first x r
  end.

(** [_get_values] for an action without [nargs]: the first [--] among
    the argument strings is dropped; a single string left is the value,
    anything else stays a list. *)
Definition get_values (arg_strings : list string) : value :=
  match remove_first "--" arg_strings with
  | [s] => PyStr s
  | l => PyList l
  end.

Definition take_action (a : argument) (arg_strings : list string)
  (st : state) : state :=
  {| namespace := <[dest a := get_values arg_strings]> (namespace st);
     seen_actions := {[dest a]} ∪ seen_actions st;
     extras := extras st |}.

Definition add_extra (st : state) : state :=
  {| namespace := namespace st; seen_actions := seen_actions st;
     extras := true |}.

Definition is_short (option_string : string) : bool :=
  match option_string with
  | String _ (String c _) => negb (Ascii.eqb c "-")
  | _ => false
  end.

(** [-hX...]: after a short option that takes no argument, the rest of the
    string is read as further short options.  The help action is first in
    line, so the process ends either way: with status 0 when the rest is
    well formed, with a usage error otherwise. *)
Fixpoint chain (p : list argument) (explicit_arg : string)
  (following : list token) : Z :=
  match explicit_arg with
  | EmptyString => 2
  | String c tl =>
      match find_option p (String "-" (String c EmptyString)) with
      | None => 2
      | Some a =>
          match act a, tl with
          | help, EmptyString => 0
          | help, _ => chain p tl following
          | store, EmptyString =>
              match following with TA _ :: _ => 0 | _ => 2 end
          | store, _ => 0
          end
      end
  end.

Definition finish (p : list argument) (st : state) : outcome :=
  if forallb (fun a => negb (required a)
                       || bool_decide (dest a ∈ seen_actions st)) p
  then if extras st then Exit 2 else Parsed (namespace st)
  else Exit 2.

(** The main loop of [_parse_known_args] followed by the checks of
    [parse_args]. *)
Fixpoint consume (p : list argument) (toks : list token) (st : state)
  : outcome :=
  match toks with
  | [] => finish p st
  | TA _ :: rest => consume p rest (add_extra st)
  | TDash :: rest => consume p rest (add_extra st)
  | TO None :: rest => consume p rest (add_extra st)
  | TO (Some (a, o, e)) :: rest =>
      match act a, e with
      | store, Some v => consume p rest (take_action a [v] st)
      | store, None =>
          match rest with
          | TA v :: rest' => consume p rest' (take_action a [v] st)
          | _ => Exit 2
          end
      | help, None => Exit 0
      | help, Some x => if is_short o then Exit (chain p x rest) else Exit 2
      end
  end.

(** A declared default as a value of the namespace. *)
Definition default_value (a : argument) : value :=
  match default a with
  | Some s => PyStr s
  | None => PyNone
  end.

(** The namespace before any string is read: every stored attribute at its
    default. *)
Definition initial_namespace (p : list argument) : gmap string value :=
  foldl (fun ns a => match act a with
                     | store => <[dest a := default_value a]> ns
                     | help => ns
                     end) ∅ p.

Definition parse_args (p : list argument) (argv : list string) : outcome :=
  match classify p argv with
  | None => Exit 2
  | Some toks =>
      consume p toks {| namespace := initial_namespace p;
                        seen_actions := ∅; extras := false |}
  end.

(** [args = vars(ap.parse_args())] *)
Definition args_of (argv : list string) : outcome := parse_args ap argv.

(** The strings that are read for options: those before the first
    [--]. *)
Fixpoint option_part (argv : list string) : list string :=
  match argv with
  | [] => []
  | s :: rest => if String.eqb s "--" then [] else s :: option_part rest
  end.

(** What stands before the first [=], or the whole string. *)
Definition before_equals (s : string) : string :=
  match split_at "=" s with
  | Some (o, _) => o
  | None => s
  end.

(** The ways of writing an option on the command line: its short option
    string, alone or with a value attached, or its long option string,
    whole or cut short to no less than its first letter, alone or
    followed by [=] and a value. *)
Definition spells (a : argument) (s : string) : bool :=
  existsb (fun o =>
             if String.prefix "--" o
             then (3 <=? String.length (before_equals s))%nat
                  && String.prefix (before_equals s) o
             else String.prefix o s)
          (option_strings a).





End Cli.

(** ** Dataset loader (lines 48-68) *)

Module Loader.

(** [os.path.sep] *)
Definition sep : ascii := "/".

(** [s.split(c)] for a one-character separator: never empty, and empty
    components are kept. *)
Fixpoint split (c : ascii) (s : string) : list string :=
  match s with
  | EmptyString => [EmptyString]
  | String x r =>
      if Ascii.eqb x c then EmptyString :: split c r
      else match split c r with
           | h :: t => String x h :: t
           | [] => [String x EmptyString]
           end
  end.

(** [l[-k]] for [k >= 1]. *)
Definition index_from_end {A} (l : list A) (k : nat) : result A :=
  if (k <=? length l)%nat
  then match l !! (length l - k)%nat with
       | Some x => Ok x
       | None => Raise IndexError
       end
  else Raise IndexError.

(** Line 55: [label = imagePath.split(os.path.sep)[-2]] *)
Definition label_of (imagePath : string) : result string :=
  index_from_end (split sep imagePath) 2.

Fixpoint ends_with_sep (s : string) : bool :=
  match s with
  | EmptyString => false
  | String x EmptyString => Ascii.eqb x sep
  | String _ r => ends_with_sep r
  end.

(** [os.path.join(a, b)] on POSIX. *)
Definition path_join (a b : string) : string :=
  if String.prefix (String sep EmptyString) b then b
  else if negb (Cli.nonempty a) || ends_with_sep a then a +:+ b
  else a +:+ String sep b.

(** [os.path.basename(p)]: what follows the last separator. *)
Definition basename (p : string) : string :=
  List.last (split sep p) EmptyString.

(** What [--dataset] points at: a directory tree. *)
#[warnings="-register-all"]
Inductive node : Type :=
| File
| Directory (children : list (string * node)).

Definition filenames (children : list (string * node)) : list string :=
  omap (fun c : string * node =>
          match snd c with File => Some (fst c) | Directory _ => None end)
       children.

(** [os.walk(top)], top down: each directory with the names of the files
    in it.  Walking something that is not a directory yields nothing. *)
Fixpoint walk (rootDir : string) (t : node) : list (string * list string) :=
  match t with
  | File => []
  | Directory children =>
      (rootDir, filenames children) ::
      (fix subdirs (cs : list (string * node)) : list (string * list string) :=
         match cs with
         | [] => []
         | (name, t') :: cs' => walk (path_join rootDir name) t' ++ subdirs cs'
         end) children
  end.

(** [s[s.rfind("."):]]: from the last dot on; without a dot [rfind] gives
    -1 and the slice is the last character. *)
Fixpoint from_last_dot (s : string) : option string :=
  match s with
  | EmptyString => None
  | String x r =>
      match from_last_dot r with
      | Some e => Some e
      | None => if Ascii.eqb x "." then Some s else None
      end
  end.

Fixpoint last_char (s : string) : string :=
  match s with
  | EmptyString => EmptyString
  | String x EmptyString => s
  | String _ r => last_char r
  end.

Definition lower_char (c : ascii) : ascii :=
  let n := nat_of_ascii c in
  if ((65 <=? n) && (n <=? 90))%nat then ascii_of_nat (n + 32) else c.

Fixpoint lower (s : string) : string :=
  match s with
  | EmptyString => EmptyString
  | String x r => String (lower_char x) (lower r)
  end.

(** [s.endswith(suffix)] *)
Fixpoint endswith (s suffix : string) : bool :=
  String.eqb s suffix
  || match s with
     | EmptyString => false
     | String _ r => endswith r suffix
     end.

Definition image_types : list string :=
  [".jpg"; ".jpeg"; ".png"; ".bmp"; ".tif"; ".tiff"].

(** The extension test of [paths.list_images]. *)
Definition is_image (filename : string) : bool :=
  let ext := lower (default (last_char filename) (from_last_dot filename)) in
  existsb (endswith ext) image_types.

(** [list(paths.list_images(basePath))]; [None] is a path that does not
    exist, which [os.walk] passes over in silence. *)
Definition list_images (basePath : string) (root : option node)
  : list string :=
  match root with
  | None => []
  | Some t =>
      '(rootDir, files) ← walk basePath t;
      filename ← files;
      if is_image filename then [path_join rootDir filename] else []
  end.

(** Whether a recognizable image file lies anywhere in the tree. *)
Fixpoint has_image (t : node) : bool :=
  match t with
  | File => false
  | Directory children =>
      (fix any (cs : list (string * node)) : bool :=
         match cs with
         | [] => false
         | (name, t') :: cs' =>
             match t' with
             | File => is_image name
             | Directory _ => has_image t'
             end || any cs'
         end) children
  end.

(** A file or directory name: not empty, no separator in it. *)
Definition valid_name (s : string) : bool :=
  Cli.nonempty s && negb (Cli.mem_char sep s).

Fixpoint well_named (t : node) : bool :=
  match t with
  | File => true
  | Directory children =>
      (fix all (cs : list (string * node)) : bool :=
         match cs with
         | [] => true
         | (name, t') :: cs' => valid_name name && well_named t' && all cs'
         end) children
  end.

(** A directory path as it is usually given: not empty, no trailing
    separator. *)
Definition clean (p : string) : bool :=
  Cli.nonempty p && negb (ends_with_sep p).

(** Two small dataset directories used as examples below: one laid out
    as the script expects with one image directly under the top, and one
    without a single image file. *)
Definition dataset_with_images : node :=
  Directory [("a.png", File);
             ("with_mask", Directory [("b.jpg", File)]);
             ("without_mask", Directory [("c.jpeg", File)])].

Definition dataset_without_images : node :=
  Directory [("with_mask", Directory [("notes.txt", File)]);
             ("without_mask", Directory [])].

Section Loading.

Context {Image : Type}.

(** [load_img], [img_to_array] and [preprocess_input] on one path; a file
    that cannot be decoded raises. *)
Variable load_image : string -> result Image.

(** The loop of lines 53-64, with the two lists it appends to. *)
Fixpoint load_loop (imagePaths : list string)
  (data : list Image) (labels : list string)
  : result (list Image * list string) :=
  match imagePaths with
  | [] => Ok (data, labels)
  | imagePath :: rest =>
      label ← label_of imagePath;
      image ← load_image imagePath;
      load_loop rest (data ++ [image]) (labels ++ [label])
  end.

(** The loading stage: enumeration, then the loop. *)
Definition load_dataset (basePath : string) (root : option node)
  : result (list Image * list string) :=
  load_loop (list_images basePath root) [] [].

End Loading.

End Loader.

(** ** Label encoder (lines 71-73) and decoding (lines 136-140) *)

Module Encoder.

(** A NumPy array: its shape and its elements in row-major order. *)
Record ndarray (A : Type) : Type := { shape : list nat; data : list A }.
Arguments shape {A} _.
Arguments data {A} _.

(** [np.array(labels)] *)
Definition array1 {A} (l : list A) : ndarray A :=
  {| shape := [length l]; data := l |}.

(** [np.unique]: the distinct values in increasing order. *)
Fixpoint insert_unique (x : string) (l : list string) : list string :=
  match l with
  | [] => [x]
  | y :: r =>
      if String.eqb x y then l
      else if String.leb x y then x :: l
      else y :: insert_unique x r
  end.

Definition unique (y : list string) : list string :=
  foldr insert_unique [] y.

(** [np.searchsorted(a, v)] on a sorted [a]: the first position whose
    element is not below [v]. *)
Fixpoint searchsorted (a : list string) (v : string) : nat :=
  match a with
  | [] => 0
  | x :: r => if String.ltb x v then S (searchsorted r v) else 0
  end.

Inductive target_type : Type := binary | multiclass.

(** [type_of_target] on a one-dimensional array of strings. *)
Definition type_of_target (y : list string) : target_type :=
  if (length (unique y) <=? 2)%nat then binary else multiclass.

Record LabelBinarizer : Type := {
  classes_ : list string;
  y_type_ : target_type
}.

(** [lb.fit(y)]: an empty [y] is rejected. *)
Definition fit (y : list string) : result LabelBinarizer :=
  match y with
  | [] => Raise ValueError
  | _ => Ok {| classes_ := unique y; y_type_ := type_of_target y |}
  end.

(** Row [i] of the indicator matrix with [k] columns. *)
Definition indicator_row (k i : nat) : list Z :=
  (fun j => if (j =? i)%nat then 1 else 0) <$> seq 0 k.

(** [label_binarize(y, classes=classes)] with the default 0/1 labels. *)
Definition label_binarize (y classes : list string) : ndarray Z :=
  let n_samples := length y in
  let n_classes := length classes in
  match type_of_target y, n_classes with
  | binary, 1%nat =>
      {| shape := [n_samples; 1%nat]; data := replicate n_samples 0 |}
  | y_type, _ =>
      let indices := searchsorted classes <$> y in
      let Y := indicator_row n_classes <$> indices in
      match y_type, (3 <=? n_classes)%nat with
      | binary, false =>
          {| shape := [n_samples; 1%nat];
             data := (fun row => List.last row 0) <$> Y |}
      | _, _ =>
          {| shape := [n_samples; n_classes]; data := mjoin Y |}
      end
  end.

(** Line 72: [labels = lb.fit_transform(labels)] *)
Definition fit_transform (y : list string)
  : result (LabelBinarizer * ndarray Z) :=
  lb ← fit y; Ok (lb, label_binarize y (classes_ lb)).

(** [np.max] of a flattened array. *)
Definition np_max (l : list Z) : result Z :=
  match l with
  | [] => Raise ValueError
  | x :: r => Ok (foldr Z.max x r)
  end.

(** Line 73: [to_categorical(y)] with [num_classes] left out. *)
Definition to_categorical (y : ndarray Z) : result (ndarray Z) :=
  let input_shape :=
    match rev (shape y) with
    | 1%nat :: (d :: r) => rev (d :: r)
    | _ => shape y
    end in
  let flat := data y in
  m ← np_max flat;
  let num_classes := Z.to_nat (m + 1) in
  Ok {| shape := input_shape ++ [num_classes];
        data := v ← flat; indicator_row num_classes (Z.to_nat v) |}.

(** Lines 71-73 together. *)
Definition encode (labels : list string)
  : result (LabelBinarizer * ndarray Z) :=
  '(lb, Y) ← fit_transform labels;
  C ← to_categorical Y;
  Ok (lb, C).

(** The first position of the largest element. *)
Fixpoint argmax_from (best_i : nat) (best : Z) (i : nat) (l : list Z) : nat :=
  match l with
  | [] => best_i
  | x :: r =>
      if best <? x then argmax_from i x (S i) r
      else argmax_from best_i best (S i) r
  end.

Definition argmax (l : list Z) : nat :=
  match l with
  | [] => 0%nat
  | x :: r => argmax_from 0 x 1 r
  end.

Definition product (l : list nat) : nat := foldr Nat.mul 1%nat l.

(** [a.argmax(axis=1)]: the second axis is reduced, the others stay. *)
Definition argmax_axis1 (a : ndarray Z) : result (ndarray nat) :=
  match shape a with
  | n :: k :: rest =>
      if (k =? 0)%nat then Raise ValueError else
      let m := product rest in
      Ok {| shape := n :: rest;
            data :=
              i ← seq 0 n;
              (fun r => argmax ((fun j => nth ((i * k + j) * m + r) (data a) 0)
                                <$> seq 0 k)) <$> seq 0 m |}
  | _ => Raise IndexError
  end.

(** [classes[idx]] for an integer array [idx]. *)
Fixpoint take_all (classes : list string) (idx : list nat)
  : result (list string) :=
  match idx with
  | [] => Ok []
  | i :: r =>
      match classes !! i with
      | Some c => cons c <$> take_all classes r
      | None => Raise IndexError
      end
  end.

Definition take (classes : list string) (idx : ndarray nat)
  : result (ndarray string) :=
  l ← take_all classes (data idx); Ok {| shape := shape idx; data := l |}.

(** Decoding an encoded label array: the argmax along axis 1 indexes the
    fitted class list. *)
Definition decode (lb : LabelBinarizer) (Y : ndarray Z)
  : result (ndarray string) :=
  idx ← argmax_axis1 Y; take (classes_ lb) idx.

(** Encode, then decode. *)
Definition round_trip (labels : list string) : result (ndarray string) :=
  '(lb, Y) ← encode labels; decode lb Y.

(** The number of distinct labels. *)
Definition n_classes (labels : list string) : nat := length (unique labels).

(** A row with a single 1 and 0 elsewhere. *)
Definition one_hot (row : list Z) : Prop :=
  exists i, (i < length row)%nat /\ row = indicator_row (length row) i.

(** A valid two-column one-hot matrix for [n] samples. *)
Definition two_column_one_hot (n : nat) (Y : ndarray Z) : Prop :=
  shape Y = [n; 2%nat]
  /\ exists rows,
       length rows = n
       /\ Forall (fun r => length r = 2%nat /\ one_hot r) rows
       /\ data Y = mjoin rows.

(** The order [np.unique] sorts by. *)
Definition label_lt (x y : string) : Prop := String.ltb x y = true.

(** The value the binarizer writes for a label when there are two
    classes: the last column of the indicator matrix. *)
Definition class_bit (classes : list string) (v : string) : Z :=
  List.last (indicator_row 2 (searchsorted classes v)) 0.

End Encoder.

(** Lines 48-73: the loading stage, then the label encoder. *)
Definition load_and_encode {Image : Type}
  (load_image : string -> result Image) (basePath : string)
  (root : option Loader.node)
  : result (list Image * (Encoder.LabelBinarizer * Encoder.ndarray Z)) :=
  '(data, labels) ← Loader.load_dataset load_image basePath root;
  enc ← Encoder.encode labels;
  Ok (data, enc).

(** ** Model assembly and training (lines 94-128)

    Layers are objects on a heap: [base_model.layers] and the layers of
    [model] name the same objects, so freezing through one is seen
    through the other. *)

Module Network.

Section Network.

(** A weight tensor. *)
Context {W : Type}.

Record Layer : Type := {
  name : string;
  trainable : bool;
  weights : list W
}.

(** Calling a layer constructor makes a new object; layers are trainable
    unless told otherwise. *)
Definition new_layer (nm : string) (ws : list W) (h : gmap nat Layer)
  : nat * gmap nat Layer :=
  let id := fresh (dom h) in
  (id, <[id := {| name := nm; trainable := true; weights := ws |}]> h).

(** The initial weights of the two dense layers of the head. *)
Variable dense_128 dense_2 : list W.

(** Lines 98-103: pooling, flatten, dense(128), dropout, dense(2). *)
Definition head_model (h : gmap nat Layer) : list nat * gmap nat Layer :=
  let '(l1, h) := new_layer "average_pooling2d" [] h in
  let '(l2, h) := new_layer "flatten" [] h in
  let '(l3, h) := new_layer "dense" dense_128 h in
  let '(l4, h) := new_layer "dropout" [] h in
  let '(l5, h) := new_layer "dense_1" dense_2 h in
  ([l1; l2; l3; l4; l5], h).

Definition set_trainable (b : bool) (l : Layer) : Layer :=
  {| name := name l; trainable := b; weights := weights l |}.

(** Lines 110-111: [for layer in base_model.layers: layer.trainable = False] *)
Definition freeze (base_layers : list nat) (h : gmap nat Layer)
  : gmap nat Layer :=
  foldl (fun h id => alter (set_trainable false) id h) h base_layers.

(** One optimizer step: the new weights of a layer, computed from the
    whole model as it stands before the step. *)
Variable update : nat -> gmap nat Layer -> nat -> list W.

Definition apply_update (t : nat) (before : gmap nat Layer) (id : nat)
  (l : Layer) : Layer :=
  if trainable l
  then {| name := name l; trainable := true; weights := update t before id |}
  else l.

(** A training step touches the trainable layers of the model only. *)
Definition train_step (layers : list nat) (t : nat) (h : gmap nat Layer)
  : gmap nat Layer :=
  foldl (fun h' id => alter (apply_update t h id) id h') h layers.

(** [model.fit]: the steps in order, counted from [t]. *)
Fixpoint fit (layers : list nat) (steps t : nat) (h : gmap nat Layer)
  : gmap nat Layer :=
  match steps with
  | O => h
  | S n => fit layers n (S t) (train_step layers t h)
  end.

(** The state of the heap at each point of the script. *)
Record run : Type := {
  head_layers : list nat;
  model_layers : list nat;
  at_compile : gmap nat Layer;
  after_fit : gmap nat Layer
}.

(** Lines 98-128 on a heap [h] that holds the backbone. *)
Definition assemble_and_train (base_layers : list nat) (steps : nat)
  (h : gmap nat Layer) : run :=
  let '(head, h1) := head_model h in
  let model := base_layers ++ head in
  let h2 := freeze base_layers h1 in
  {| head_layers := head; model_layers := model;
     at_compile := h2; after_fit := fit model steps 0 h2 |}.

End Network.

(** A one-layer backbone with integer weights, used as an example below. *)
Definition example_backbone : @Layer Z :=
  {| name := "Conv1"; trainable := true; weights := [3; 4] |}.

Definition example_run : @run Z :=
  assemble_and_train [0; 0] [0] (fun _ _ _ => [7]) [0%nat] 2
    {[0%nat := example_backbone]}.

End Network.

(** ** Invariants and measures *)

Module Invariants.

Definition is_string (v : Cli.value) : Prop := exists s, v = Cli.PyStr s.

(** What an option that was given leaves in the namespace: a string, or
    the empty list. *)
Definition string_or_empty_list (v : Cli.value) : Prop :=
  is_string v \/ v = Cli.PyList [].

(** The parser state holds a value of the kind [P] under [plot] and
    [model], and under [dataset] as soon as that option has been seen. *)
Definition holds (P : Cli.value -> Prop) (st : Cli.state) : Prop :=
  (exists v, Cli.namespace st !! "plot" = Some v /\ P v)
  /\ (exists v, Cli.namespace st !! "model" = Some v /\ P v)
  /\ ("dataset" ∈ Cli.seen_actions st ->
      exists v, Cli.namespace st !! "dataset" = Some v /\ P v).

(** The number of recognizable image files in a tree. *)
Fixpoint count_images (t : Loader.node) : nat :=
  match t with
  | Loader.File => 0%nat
  | Loader.Directory children =>
      (fix count (cs : list (string * Loader.node)) : nat :=
         match cs with
         | [] => 0%nat
         | (name, t') :: cs' =>
             (match t' with
              | Loader.File => if Loader.is_image name then 1 else 0
              | Loader.Directory _ => count_images t'
              end + count cs')%nat
         end) children
  end.

(** The files of a tree, each with the names of the directories that
    lead to it from the top, outermost first. *)
Fixpoint files_of (t : Loader.node) : list (list string * string) :=
  match t with
  | Loader.File => []
  | Loader.Directory children =>
      (fix below (cs : list (string * Loader.node))
         : list (list string * string) :=
         match cs with
         | [] => []
         | (name, t') :: cs' =>
             match t' with
             | Loader.File => [([], name)]
             | Loader.Directory _ =>
                 (fun df => (name :: fst df, snd df)) <$> files_of t'
             end ++ below cs'
         end) children
  end.

(** The path of a file below the dataset path: the directory names are
    joined on one by one, then the file name. *)
Definition path_of (basePath : string) (dirs : list string)
  (filename : string) : string :=
  Loader.path_join (foldl Loader.path_join basePath dirs) filename.

(** A string without its last character. *)
Fixpoint chop (s : string) : string :=
  match s with
  | EmptyString => EmptyString
  | String x r =>
      match r with
      | EmptyString => EmptyString
      | _ => String x (chop r)
      end
  end.

(** What the dataset path, as it was given, has in last place once a
    single trailing separator is set aside; an empty path has
    nothing. *)
Definition top_label (basePath : string) : result string :=
  if Cli.nonempty basePath
  then Ok (Loader.basename
             (if Loader.ends_with_sep basePath then chop basePath
              else basePath))
  else Raise IndexError.

(** An array holds as many elements as its shape says. *)
Definition well_shaped {A} (a : Encoder.ndarray A) : Prop :=
  length (Encoder.data a) = Encoder.product (Encoder.shape a).

End Invariants.

(** * Properties *)

Module TrainerFacts.
Import Trainer.

Lemma floordiv_BS (n : Z) : floordiv n BS = Ok (n / 32).
Proof. reflexivity. Qed.

(** C4. For every train set of T samples and test set of S samples the
    call to [fit] is built without error, with [steps_per_epoch] the
    floor of T / 32 and [validation_steps] the floor of S / 32: the
    steps cover at most the samples there are and fewer than 32 samples
    are left over, so a partial final batch is dropped, not padded and
    not an error. *)
Theorem steps_are_floor {A B} (X_train : list A) (X_test : list B) :
  fit_call X_train X_test =
    Ok {| steps_per_epoch := Z.of_nat (length X_train / 32);
          validation_steps := Z.of_nat (length X_test / 32);
          epochs := 20 |}
  /\ (32 * (length X_train / 32) <= length X_train
      < 32 * (length X_train / 32) + 32)%nat
  /\ (32 * (length X_test / 32) <= length X_test
      < 32 * (length X_test / 32) + 32)%nat.
Proof.
  split; [|split].
  - unfold fit_call. rewrite !floordiv_BS. cbn [mbind result_bind].
    unfold len. now rewrite !(Nat2Z.inj_div _ 32).
  - pose proof (Nat.div_mod_eq (length X_train) 32).
    pose proof (Nat.mod_upper_bound (length X_train) 32 ltac:(lia)). lia.
  - pose proof (Nat.div_mod_eq (length X_test) 32).
    pose proof (Nat.mod_upper_bound (length X_test) 32 ltac:(lia)). lia.
Qed.

(** The theorem at 100 training samples and 25 test samples: three
    steps, the last four samples left over, and no validation step. *)
Lemma steps_are_floor_witness :
  fit_call (replicate 100 tt) (replicate 25 tt) =
    Ok {| steps_per_epoch := 3; validation_steps := 0; epochs := 20 |}.
Proof.
  exact (proj1 (steps_are_floor (replicate 100 tt) (replicate 25 tt))).
Defined.

End TrainerFacts.

Module OptimizerFacts.
Import Optimizer.

Lemma decayed_lr_closed (t : nat) :
  (decayed_lr opt t == 20 / (20000 + inject_Z (Z.of_nat t)))%Q.
Proof.
  unfold decayed_lr, opt, learning_rate, EPOCHS; cbn [lr decay].
  assert (0 <= inject_Z (Z.of_nat t))%Q.
  { change 0%Q with (inject_Z 0). rewrite <- Zle_Qle. lia. }
  field. lra.
Qed.

(** C6, as stated, fails: the rate in effect is not an affine function of
    the number of updates, so the decay is not linear. *)
Lemma decay_not_linear : ~ linear_schedule (decayed_lr opt).
Proof.
  intros (a & b & H).
  pose proof (H 0%nat) as H0. pose proof (H 1%nat) as H1.
  pose proof (H 2%nat) as H2.
  assert (E : (decayed_lr opt 0 + decayed_lr opt 2 == 2 * decayed_lr opt 1)%Q).
  { rewrite H0, H1, H2. cbn. ring. }
  vm_compute in E. discriminate E.
Qed.

(** C6, amended.  The rate follows time-based decay: it starts at 1e-3,
    after [t] updates it is [learning_rate / (1 + (learning_rate / EPOCHS) * t)],
    it stays positive and strictly decreases with every update; it has no
    endpoint tied to the epoch count. *)
Theorem time_based_decay (t : nat) :
  (decayed_lr opt 0 == 1 # 1000)%Q
  /\ (decayed_lr opt t * (1 + (learning_rate / inject_Z EPOCHS) * inject_Z (Z.of_nat t)) == learning_rate)%Q
  /\ (0 < decayed_lr opt (S t))%Q
  /\ (decayed_lr opt (S t) < decayed_lr opt t)%Q.
Proof.
  assert (Ht : (0 <= inject_Z (Z.of_nat t))%Q).
  { change 0%Q with (inject_Z 0). rewrite <- Zle_Qle. lia. }
  assert (HS : (inject_Z (Z.of_nat (S t)) == inject_Z (Z.of_nat t) + 1)%Q).
  { rewrite Nat2Z.inj_succ. unfold Z.succ. rewrite inject_Z_plus. reflexivity. }
  split; [reflexivity|].
  split.
  { unfold decayed_lr, opt, learning_rate, EPOCHS; cbn [lr decay].
    field. lra. }
  rewrite !decayed_lr_closed, HS.
  set (x := inject_Z (Z.of_nat t)) in *.
  split.
  - apply Qlt_shift_div_l; lra.
  - apply Qlt_shift_div_l; [lra|].
    assert (E : (20 / (20000 + (x + 1)) * (20000 + x)
                 == 20 - 20 / (20000 + (x + 1)))%Q) by (field; lra).
    rewrite E.
    assert (0 < 20 / (20000 + (x + 1)))%Q by (apply Qlt_shift_div_l; lra).
    lra.
Qed.
End OptimizerFacts.

Module AugmenterFacts.
Import Augmenter.

(** C7. The augmenter is configured with rotation up to 15 degrees, width
    and height shifts up to 0.2, zoom up to 0.1 (factors between 0.9 and
    1.1), shear up to 0.1, horizontal flips and nearest-pixel fill; every
    other augmentation stays at its default, that is, off. *)
Theorem augmenter_configuration :
  (rotation_range train_transformations == 15)%Q
  /\ (width_shift_range train_transformations == 0.2)%Q
  /\ (height_shift_range train_transformations == 0.2)%Q
  /\ (zoom_range train_transformations == 0.1)%Q
  /\ (fst (zoom_interval train_transformations) == 0.9)%Q
  /\ (snd (zoom_interval train_transformations) == 1.1)%Q
  /\ (shear_range train_transformations == 0.1)%Q
  /\ horizontal_flip train_transformations = true
  /\ fill_mode train_transformations = nearest
  /\ vertical_flip train_transformations = false
  /\ brightness_range train_transformations = None
  /\ (channel_shift_range train_transformations == 0)%Q.
Proof. repeat split; reflexivity. Qed.

End AugmenterFacts.

Module LoaderFacts.
Import Loader Invariants.

Lemma split_not_nil c s : split c s <> [].
Proof.
  destruct s as [|x r]; simpl; [discriminate|].
  destruct (Ascii.eqb x c); [discriminate|].
  destruct (split c r); discriminate.
Qed.

Lemma split_no_sep c f : Cli.mem_char c f = false -> split c f = [f].
Proof.
  induction f as [|x r IH]; simpl; [reflexivity|].
  intros H. apply orb_false_iff in H as [Hx Hr].
  rewrite Hx, (IH Hr). reflexivity.
Qed.

Lemma split_snoc c d f :
  Cli.mem_char c f = false ->
  split c (d +:+ String c f) = split c d ++ [f].
Proof.
  intros Hf. induction d as [|x r IH]; simpl.
  - rewrite Ascii.eqb_refl, (split_no_sep _ _ Hf). reflexivity.
  - destruct (Ascii.eqb x c); [now rewrite IH|].
    rewrite IH. pose proof (split_not_nil c r).
    destruct (split c r); [congruence|reflexivity].
Qed.

Lemma index_from_end_snoc {A} (l : list A) (x y : A) :
  index_from_end ((l ++ [x]) ++ [y]) 2 = Ok x.
Proof.
  unfold index_from_end. rewrite !length_app. cbn [length].
  assert (E : (2 <=? length l + 1 + 1)%nat = true) by (apply Nat.leb_le; lia).
  rewrite E.
  replace (length l + 1 + 1 - 2)%nat with (length l) by lia.
  rewrite <- app_assoc. change ([x] ++ [y]) with (x :: [y]).
  rewrite list_lookup_middle by reflexivity. reflexivity.
Qed.

Lemma last_snoc_split {A} (l : list A) (d : A) :
  l <> [] -> exists l' x, l = l' ++ [x] /\ List.last l d = x.
Proof.
  intros H. destruct (exists_last H) as (l' & x & ->).
  exists l', x. split; [reflexivity|]. apply last_last.
Qed.

(** The label of [d/f] is the last component of [d]. *)
Lemma label_of_child d f :
  Cli.mem_char sep f = false ->
  label_of (d +:+ String sep f) = Ok (basename d).
Proof.
  intros Hf. unfold label_of, basename. rewrite (split_snoc _ _ _ Hf).
  destruct (last_snoc_split (split sep d) EmptyString (split_not_nil _ _))
    as (l' & x & -> & ->).
  apply index_from_end_snoc.
Qed.

Lemma basename_child d f :
  Cli.mem_char sep f = false -> basename (d +:+ String sep f) = f.
Proof.
  intros Hf. unfold basename. rewrite (split_snoc _ _ _ Hf). apply last_last.
Qed.

Lemma valid_name_spec f :
  valid_name f = true ->
  Cli.nonempty f = true /\ Cli.mem_char sep f = false.
Proof.
  unfold valid_name. intros H. apply andb_true_iff in H as [H1 H2].
  split; [assumption|]. now apply negb_true_iff.
Qed.

Lemma no_sep_not_ends f : Cli.mem_char sep f = false -> ends_with_sep f = false.
Proof.
  induction f as [|x r IH]; [reflexivity|]. simpl.
  intros H. apply orb_false_iff in H as [Hx Hr].
  destruct r; [assumption|]. now apply IH.
Qed.

Lemma ends_with_sep_app a b :
  Cli.nonempty b = true -> ends_with_sep (a +:+ b) = ends_with_sep b.
Proof.
  intros Hb. induction a as [|x r IH]; [reflexivity|].
  change (String x r +:+ b) with (String x (r +:+ b)).
  cbn [ends_with_sep]. destruct (r +:+ b) eqn:E.
  - destruct r, b; simpl in *; discriminate.
  - exact IH.
Qed.

(** Joining a clean directory path and a name puts one separator between
    them. *)
Lemma path_join_clean r f :
  clean r = true -> valid_name f = true ->
  path_join r f = r +:+ String sep f.
Proof.
  intros Hr Hf. apply valid_name_spec in Hf as [Hne Hns].
  unfold clean in Hr. apply andb_true_iff in Hr as [Hr1 Hr2].
  apply negb_true_iff in Hr2.
  unfold path_join. rewrite Hr1, Hr2. simpl.
  destruct f as [|x f']; [discriminate|].
  simpl in Hns. apply orb_false_iff in Hns as [Hx _].
  apply Ascii.eqb_neq in Hx.
  cbn [String.prefix]. destruct (ascii_dec sep x) as [E|E]; [congruence|].
  reflexivity.
Qed.

Lemma clean_join r f :
  clean r = true -> valid_name f = true -> clean (path_join r f) = true.
Proof.
  intros Hr Hf. rewrite (path_join_clean _ _ Hr Hf).
  apply valid_name_spec in Hf as [Hne Hns].
  unfold clean. rewrite (ends_with_sep_app r (String sep f) eq_refl).
  replace (Cli.nonempty (r +:+ String sep f)) with true
    by (destruct r; reflexivity).
  cbn [ends_with_sep andb]. destruct f; [discriminate|].
  now rewrite (no_sep_not_ends _ Hns).
Qed.

Lemma label_of_join r f :
  clean r = true -> valid_name f = true ->
  label_of (path_join r f) = Ok (basename r).
Proof.
  intros Hr Hf. rewrite (path_join_clean _ _ Hr Hf).
  apply label_of_child. now apply valid_name_spec.
Qed.

Lemma basename_join r f :
  clean r = true -> valid_name f = true -> basename (path_join r f) = f.
Proof.
  intros Hr Hf. rewrite (path_join_clean _ _ Hr Hf).
  apply basename_child. now apply valid_name_spec.
Qed.

(** Induction on directory trees. *)
Lemma node_nested_ind (P : node -> Prop) :
  P File ->
  (forall cs, Forall (fun c => P (snd c)) cs -> P (Directory cs)) ->
  forall t, P t.
Proof.
  intros HF HD. fix go 1. intros [|cs]; [exact HF|]. apply HD.
  induction cs as [|c cs IH]; constructor; [apply go|exact IH].
Qed.

Lemma walk_directory rootDir cs :
  walk rootDir (Directory cs) =
  (rootDir, filenames cs) :: (c ← cs; walk (path_join rootDir (fst c)) (snd c)).
Proof.
  cbn [walk]. f_equal.
  induction cs as [|[name t'] cs IH]; [reflexivity|].
  cbn [mbind list_bind fst snd] in *. now rewrite IH.
Qed.

Lemma well_named_directory cs :
  well_named (Directory cs) = true <->
  Forall (fun c => valid_name (fst c) = true /\ well_named (snd c) = true) cs.
Proof.
  cbn [well_named].
  induction cs as [|[name t'] cs IH].
  - split; [constructor|reflexivity].
  - rewrite Forall_cons, <- IH, !andb_true_iff. cbn [fst snd]. tauto.
Qed.

Lemma filenames_valid cs f :
  Forall (fun c => valid_name (fst c) = true /\ well_named (snd c) = true) cs ->
  f ∈ filenames cs -> valid_name f = true.
Proof.
  intros Hcs Hf. unfold filenames in Hf.
  apply list_elem_of_omap in Hf as ([name t'] & Hin & Hsome).
  rewrite Forall_forall in Hcs. specialize (Hcs _ Hin) as [Hv _].
  cbn [fst snd] in *. destruct t'; [|discriminate].
  now injection Hsome as <-.
Qed.

Lemma file_in_filenames cs f : (f, File) ∈ cs -> f ∈ filenames cs.
Proof.
  intros Hin. unfold filenames. apply list_elem_of_omap.
  exists (f, File). split; [assumption|reflexivity].
Qed.

(** Every directory the walk reports is the top directory or a named
    directory below a clean parent path, and holds valid file names. *)
Lemma walk_directories t :
  forall rootDir r fs,
    well_named t = true -> clean rootDir = true ->
    (r, fs) ∈ walk rootDir t ->
    clean r = true
    /\ (forall f, f ∈ fs -> valid_name f = true)
    /\ (r = rootDir
        \/ exists parent name,
             clean parent = true /\ valid_name name = true
             /\ r = path_join parent name).
Proof.
  induction t as [|cs IH] using node_nested_ind; intros rootDir r fs Hwn Hc Hin.
  - cbn in Hin. now apply elem_of_nil in Hin.
  - apply well_named_directory in Hwn.
    rewrite walk_directory in Hin.
    apply elem_of_cons in Hin as [Heq|Hin].
    + injection Heq as -> ->. split; [assumption|].
      split; [|now left]. intros f Hf. eapply filenames_valid; eassumption.
    + apply list_elem_of_bind in Hin as ([name t'] & Hin & Hc').
      cbn [fst snd] in Hin.
      rewrite Forall_forall in IH, Hwn.
      destruct (Hwn _ Hc') as [Hname Ht']. cbn [fst snd] in Hname, Ht'.
      destruct (IH _ Hc' (path_join rootDir name) r fs Ht'
                  (clean_join _ _ Hc Hname) Hin) as (Hr & Hfs & Hor).
      split; [assumption|]. split; [assumption|]. right.
      destruct Hor as [->|Hex]; [|assumption].
      exists rootDir, name. auto.
Qed.

Lemma elem_of_list_images basePath t p :
  p ∈ list_images basePath (Some t) <->
  exists r fs f,
    (r, fs) ∈ walk basePath t /\ f ∈ fs /\ is_image f = true
    /\ p = path_join r f.
Proof.
  unfold list_images. rewrite list_elem_of_bind. split.
  - intros ([r fs] & Hp & Hw). apply list_elem_of_bind in Hp as (f & Hp & Hf).
    destruct (is_image f) eqn:E; [|now apply elem_of_nil in Hp].
    apply list_elem_of_singleton in Hp. eauto 10.
  - intros (r & fs & f & Hw & Hf & Hi & ->). exists (r, fs).
    split; [|assumption]. apply list_elem_of_bind. exists f.
    split; [|assumption]. rewrite Hi. now apply list_elem_of_singleton.
Qed.

Lemma index_from_end_two {A} (l : list A) (x : A) :
  index_from_end l 2 = Ok x <-> exists front y, l = front ++ [x; y].
Proof.
  split.
  - unfold index_from_end. destruct (2 <=? length l)%nat eqn:E; [|discriminate].
    apply Nat.leb_le in E.
    destruct (l !! (length l - 2)%nat) as [x'|] eqn:El; [|discriminate].
    intros H. injection H as ->.
    pose proof (take_drop_middle _ _ _ El) as Hl.
    assert (Hd : length (drop (S (length l - 2)) l) = 1%nat)
      by (rewrite length_drop; lia).
    destruct (drop (S (length l - 2)) l) as [|y [|? ?]]; try discriminate Hd.
    exists (take (length l - 2) l), y. now rewrite Hl.
  - intros (front & y & ->).
    change (front ++ [x; y]) with (front ++ [x] ++ [y]).
    rewrite app_assoc. apply index_from_end_snoc.
Qed.

(** *** Paths of any shape *)

Lemma chop_spec s :
  ends_with_sep s = true -> s = chop s +:+ String sep EmptyString.
Proof.
  induction s as [|x r IH]; [discriminate|]. cbn [ends_with_sep chop].
  destruct r as [|y r'].
  - intros H. apply Ascii.eqb_eq in H. now subst x.
  - intros H. change (String x (chop (String y r')) +:+ String sep "")
      with (String x (chop (String y r') +:+ String sep "")).
    f_equal. now apply IH.
Qed.

Lemma append_assoc a b c : (a +:+ b) +:+ c = a +:+ (b +:+ c).
Proof.
  induction a as [|x a IH]; [reflexivity|].
  change ((String x a +:+ b) +:+ c) with (String x ((a +:+ b) +:+ c)).
  now rewrite IH.
Qed.

Lemma append_sep a b :
  (a +:+ String sep EmptyString) +:+ b = a +:+ String sep b.
Proof. apply append_assoc. Qed.

(** Joining a name onto a path that is empty or ends with a separator
    adds no separator. *)
Lemma path_join_unclean r f :
  clean r = false -> valid_name f = true -> path_join r f = r +:+ f.
Proof.
  intros Hr Hf. apply valid_name_spec in Hf as [Hne Hns].
  unfold path_join. destruct f as [|x f']; [discriminate|].
  simpl in Hns. apply orb_false_iff in Hns as [Hx _].
  apply Ascii.eqb_neq in Hx.
  cbn [String.prefix]. destruct (ascii_dec sep x) as [E|E]; [congruence|].
  unfold clean in Hr.
  destruct (Cli.nonempty r); [|reflexivity]. cbn [andb negb orb] in *.
  apply negb_false_iff in Hr. now rewrite Hr.
Qed.

Lemma clean_join_any r d :
  valid_name d = true -> clean (path_join r d) = true.
Proof.
  intros Hd. destruct (clean r) eqn:Hr; [now apply clean_join|].
  rewrite (path_join_unclean _ _ Hr Hd).
  apply valid_name_spec in Hd as [Hne Hns]. unfold clean.
  rewrite (ends_with_sep_app r d Hne), (no_sep_not_ends _ Hns).
  destruct r as [|x r'];
    [change (EmptyString +:+ d) with d; now rewrite Hne|reflexivity].
Qed.

Lemma basename_join_any r d :
  valid_name d = true -> basename (path_join r d) = d.
Proof.
  intros Hd. destruct (clean r) eqn:Hr; [now apply basename_join|].
  rewrite (path_join_unclean _ _ Hr Hd).
  pose proof (valid_name_spec _ Hd) as [Hne Hns].
  unfold clean in Hr. destruct r as [|x r'].
  - change (EmptyString +:+ d) with d. unfold basename.
    now rewrite (split_no_sep _ _ Hns).
  - cbn [Cli.nonempty andb] in Hr. apply negb_false_iff in Hr.
    rewrite (chop_spec _ Hr), append_sep. now apply basename_child.
Qed.

(** The label of a file directly under the path [basePath]. *)
Lemma label_of_top basePath f :
  valid_name f = true -> label_of (path_join basePath f) = top_label basePath.
Proof.
  intros Hf. unfold top_label. destruct (clean basePath) eqn:Hc.
  - rewrite (label_of_join _ _ Hc Hf). unfold clean in Hc.
    apply andb_true_iff in Hc as [-> Hc]. apply negb_true_iff in Hc.
    now rewrite Hc.
  - rewrite (path_join_unclean _ _ Hc Hf).
    pose proof (valid_name_spec _ Hf) as [Hne Hns].
    unfold clean in Hc. destruct basePath as [|x r'].
    + change (EmptyString +:+ f) with f. cbn [Cli.nonempty].
      unfold label_of. now rewrite (split_no_sep _ _ Hns).
    + cbn [Cli.nonempty andb] in *. apply negb_false_iff in Hc.
      rewrite Hc. rewrite (chop_spec _ Hc) at 1. rewrite append_sep.
      now apply label_of_child.
Qed.

(** *** The walk and the files of the tree *)

Lemma files_of_directory cs :
  files_of (Directory cs) =
  c ← cs;
  match snd c with
  | File => [([], fst c)]
  | Directory _ => (fun df => (fst c :: fst df, snd df)) <$> files_of (snd c)
  end.
Proof.
  cbn [files_of].
  induction cs as [|[name t'] cs IH]; [reflexivity|].
  rewrite bind_cons. cbn [fst snd]. now rewrite IH.
Qed.

Lemma elem_of_filenames cs f : f ∈ filenames cs <-> (f, File) ∈ cs.
Proof.
  split; [|apply file_in_filenames]. unfold filenames. intros H.
  apply list_elem_of_omap in H as ([name t'] & Hin & Hs).
  cbn [fst snd] in Hs. destruct t'; [|discriminate].
  now injection Hs as <-.
Qed.

(** The walk reports each file once under the directory it lies in,
    reached from the top by the names of the directories on the way. *)
Lemma walk_files t :
  forall rootDir f r,
    (exists fs, (r, fs) ∈ walk rootDir t /\ f ∈ fs) <->
    exists dirs, (dirs, f) ∈ files_of t /\ r = foldl path_join rootDir dirs.
Proof.
  induction t as [|cs IH] using node_nested_ind; intros rootDir f r.
  - split; [intros (fs & H & _)|intros (dirs & H & _)];
      now apply elem_of_nil in H.
  - rewrite walk_directory, files_of_directory.
    rewrite Forall_forall in IH. split.
    + intros (fs & [Heq|Hin]%elem_of_cons & Hf).
      * injection Heq as -> ->. apply elem_of_filenames in Hf.
        exists []. split; [|reflexivity].
        apply list_elem_of_bind. exists (f, File).
        split; [apply list_elem_of_here|assumption].
      * apply list_elem_of_bind in Hin as ([name t'] & Hin & Hc).
        cbn [fst snd] in Hin.
        destruct (proj1 (IH _ Hc (path_join rootDir name) f r))
          as (dirs & Hd & ->); [now exists fs|].
        exists (name :: dirs). split; [|reflexivity].
        apply list_elem_of_bind. exists (name, t'). split; [|assumption].
        cbn [fst snd]. destruct t'; [now apply elem_of_nil in Hd|].
        apply list_elem_of_fmap. now exists (dirs, f).
    + intros (dirs & Hin & ->).
      apply list_elem_of_bind in Hin as ([name t'] & Hin & Hc).
      cbn [fst snd] in Hin. destruct t' as [|cs'].
      * apply list_elem_of_singleton in Hin. injection Hin as -> ->.
        exists (filenames cs). split; [apply list_elem_of_here|].
        now apply elem_of_filenames.
      * apply list_elem_of_fmap in Hin as ([dirs' f'] & Heq & Hin).
        cbn [fst snd] in Heq. injection Heq as -> ->.
        destruct (proj2 (IH _ Hc (path_join rootDir name) f'
                           (foldl path_join (path_join rootDir name) dirs')))
          as (fs & Hw & Hf); [now exists dirs'|].
        exists fs. split; [|assumption]. apply list_elem_of_further.
        apply list_elem_of_bind. now exists (name, Directory cs').
Qed.

(** In a tree with proper names the files and the directories on the
    way to them have proper names. *)
Lemma files_of_valid t :
  well_named t = true ->
  forall dirs f, (dirs, f) ∈ files_of t ->
    Forall (fun d => valid_name d = true) dirs /\ valid_name f = true.
Proof.
  induction t as [|cs IH] using node_nested_ind; intros Hwn dirs f Hin.
  - now apply elem_of_nil in Hin.
  - apply well_named_directory in Hwn.
    rewrite files_of_directory in Hin. rewrite Forall_forall in IH, Hwn.
    apply list_elem_of_bind in Hin as ([name t'] & Hin & Hc).
    destruct (Hwn _ Hc) as [Hname Ht']. cbn [fst snd] in *.
    destruct t' as [|cs'].
    + apply list_elem_of_singleton in Hin. injection Hin as -> ->.
      split; [constructor|assumption].
    + apply list_elem_of_fmap in Hin as ([dirs' f'] & Heq & Hin).
      cbn [fst snd] in Heq. injection Heq as -> ->.
      destruct (IH _ Hc Ht' _ _ Hin) as [Hd Hf].
      split; [now constructor|assumption].
Qed.

(** The label of a file that has a directory of the tree above it. *)
Lemma label_of_nested rootDir dirs d f :
  valid_name d = true -> valid_name f = true ->
  label_of (path_of rootDir (dirs ++ [d]) f) = Ok d.
Proof.
  intros Hd Hf. unfold path_of. rewrite foldl_app. cbn [foldl].
  rewrite label_of_join by (try apply clean_join_any; assumption).
  now rewrite basename_join_any.
Qed.

(** C10, as stated, fails: given as [dataset//] the dataset path leads
    to the same directory, the image directly inside it is discovered,
    and its label is the empty string, which is no directory's name;
    given as [.] the label is the dot. *)
Lemma top_label_not_a_name :
  ([], "a.png") ∈ files_of dataset_with_images
  /\ "dataset//a.png" ∈ list_images "dataset//" (Some dataset_with_images)
  /\ label_of "dataset//a.png" = Ok ""
  /\ valid_name "" = false
  /\ "./a.png" ∈ list_images "." (Some dataset_with_images)
  /\ label_of "./a.png" = Ok ".".
Proof.
  split; [apply list_elem_of_here|].
  split; [apply list_elem_of_here|].
  split; [reflexivity|]. split; [reflexivity|].
  split; [apply list_elem_of_here|reflexivity].
Qed.

(** C10, amended.  The label of a path is its second-to-last component,
    whatever the path.  The enumeration discovers exactly the image
    files of the tree, each under the path made of the dataset path, the
    names of the directories above the file and the file name.  A file
    with a directory of the tree above it is labelled with the name of
    the directory it lies in, whatever the dataset path.  A file
    directly inside the dataset directory is labelled with what the
    dataset path, as given, has in last place once one trailing
    separator is set aside: the last component of a path given without
    trailing separator or with one, the empty string for a path given
    with two, and an error only for the empty path. *)
Theorem label_is_parent_directory (basePath : string) (t : node) :
  (forall p label,
     label_of p = Ok label <->
     exists front filename, split sep p = front ++ [label; filename])
  /\ (forall p,
        p ∈ list_images basePath (Some t) <->
        exists dirs f,
          (dirs, f) ∈ files_of t /\ is_image f = true
          /\ p = path_of basePath dirs f)
  /\ (well_named t = true ->
      forall dirs f,
        (dirs, f) ∈ files_of t ->
        label_of (path_of basePath dirs f)
        = match last dirs with
          | Some d => Ok d
          | None => top_label basePath
          end)
  /\ (clean basePath = true -> top_label basePath = Ok (basename basePath))
  /\ (clean basePath = true ->
      top_label (basePath +:+ String sep EmptyString) = Ok (basename basePath)
      /\ top_label (basePath +:+ String sep (String sep EmptyString))
         = Ok EmptyString)
  /\ top_label EmptyString = Raise IndexError.
Proof.
  split; [intros p label; apply index_from_end_two|].
  split; [|split; [|split; [|split]]].
  - intros p. rewrite elem_of_list_images. split.
    + intros (r & fs & f & Hw & Hf & Hi & ->).
      destruct (proj1 (walk_files t basePath f r)) as (dirs & Hd & ->);
        [now exists fs|].
      now exists dirs, f.
    + intros (dirs & f & Hd & Hi & ->).
      destruct (proj2 (walk_files t basePath f (foldl path_join basePath dirs)))
        as (fs & Hw & Hf); [now exists dirs|].
      now exists (foldl path_join basePath dirs), fs, f.
  - intros Hwn dirs f Hin.
    destruct (files_of_valid t Hwn dirs f Hin) as [Hd Hf].
    destruct dirs as [|d0 dirs0] using rev_ind.
    + cbn [last]. now apply label_of_top.
    + rewrite last_snoc. apply Forall_app in Hd as [_ Hd].
      apply Forall_cons in Hd as [Hd _]. now apply label_of_nested.
  - intros Hc. unfold top_label. unfold clean in Hc.
    apply andb_true_iff in Hc as [-> Hc]. apply negb_true_iff in Hc.
    now rewrite Hc.
  - intros Hc.
    rewrite <- (label_of_top (basePath +:+ String sep EmptyString)
                  "f" eq_refl).
    rewrite <- (label_of_top
                  (basePath +:+ String sep (String sep EmptyString))
                  "f" eq_refl).
    assert (U1 : clean (basePath +:+ String sep "") = false).
    { unfold clean.
      rewrite (ends_with_sep_app basePath (String sep "") eq_refl).
      apply andb_false_r. }
    assert (U2 : clean (basePath +:+ String sep (String sep "")) = false).
    { unfold clean.
      rewrite (ends_with_sep_app basePath (String sep (String sep ""))
                 eq_refl).
      apply andb_false_r. }
    rewrite (path_join_unclean _ "f" U1 eq_refl).
    rewrite (path_join_unclean _ "f" U2 eq_refl).
    rewrite append_sep. split; [now apply label_of_child|].
    rewrite append_assoc.
    change (String sep (String sep "") +:+ "f")
      with (String sep "" +:+ String sep "f").
    rewrite <- append_assoc, (label_of_child _ "f" eq_refl).
    f_equal. unfold basename.
    rewrite (split_snoc sep basePath EmptyString eq_refl).
    apply last_last.
  - reflexivity.
Qed.

(** The theorem at the example directory: the image below [with_mask] is
    labelled [with_mask], the image directly under [dataset] is labelled
    [dataset]. *)
Lemma label_is_parent_directory_witness :
  label_of "dataset/with_mask/b.jpg" = Ok "with_mask"
  /\ label_of "dataset/a.png" = Ok "dataset".
Proof.
  pose proof (proj1 (proj2 (proj2 (label_is_parent_directory "dataset"
                                     dataset_with_images))) eq_refl) as H.
  split.
  - exact (H ["with_mask"] "b.jpg"
             ltac:(apply list_elem_of_further, list_elem_of_here)).
  - exact (H [] "a.png" ltac:(apply list_elem_of_here)).
Defined.

Lemma has_image_directory cs :
  has_image (Directory cs) = false <->
  Forall (fun c => match snd c with
                   | File => is_image (fst c) = false
                   | Directory _ => has_image (snd c) = false
                   end) cs.
Proof.
  cbn [has_image].
  induction cs as [|[name t'] cs IH].
  - split; [constructor|reflexivity].
  - rewrite Forall_cons, <- IH, orb_false_iff. cbn [fst snd].
    destruct t'; tauto.
Qed.

(** A tree without image files has no image in any directory of the walk. *)
Lemma walk_without_images t :
  forall rootDir r fs f,
    has_image t = false -> (r, fs) ∈ walk rootDir t -> f ∈ fs ->
    is_image f = false.
Proof.
  induction t as [|cs IH] using node_nested_ind; intros rootDir r fs f Hno Hin Hf.
  - cbn in Hin. now apply elem_of_nil in Hin.
  - apply has_image_directory in Hno. rewrite Forall_forall in Hno, IH.
    rewrite walk_directory in Hin. apply elem_of_cons in Hin as [Heq|Hin].
    + injection Heq as -> ->. unfold filenames in Hf.
      apply list_elem_of_omap in Hf as ([name t'] & Hc & Hsome).
      specialize (Hno _ Hc). cbn [fst snd] in *.
      destruct t'; [|discriminate]. now injection Hsome as <-.
    + apply list_elem_of_bind in Hin as ([name t'] & Hin & Hc).
      cbn [fst snd] in Hin. specialize (Hno _ Hc). cbn [fst snd] in Hno.
      destruct t' as [|cs'] eqn:Et; [cbn in Hin; now apply elem_of_nil in Hin|].
      exact (IH _ Hc _ _ _ _ Hno Hin Hf).
Qed.

(** Nothing is enumerated under a path that does not exist or holds no
    image file; no error is raised either. *)
Lemma list_images_empty basePath root :
  (forall t, root = Some t -> has_image t = false) ->
  list_images basePath root = [].
Proof.
  intros Hno. destruct root as [t|]; [|reflexivity].
  specialize (Hno t eq_refl). apply elem_of_nil_inv. intros p Hp.
  apply elem_of_list_images in Hp as (r & fs & f & Hw & Hf & Hi & _).
  rewrite (walk_without_images t _ _ _ _ Hno Hw Hf) in Hi. discriminate.
Qed.

(** C1, as stated, fails: a dataset directory without a single image file
    is enumerated without error, and the loading stage returns normally
    with empty data and label lists. *)
Lemma no_images_loads_empty :
  has_image dataset_without_images = false
  /\ list_images "dataset" (Some dataset_without_images) = []
  /\ load_dataset (fun _ => Ok tt) "dataset" (Some dataset_without_images)
     = Ok ([], []).
Proof. repeat split; reflexivity. Qed.

(** C1, amended.  When the dataset path holds zero recognizable image
    files (or does not exist) the enumeration is empty and the loading
    stage ends normally with empty data and labels; the run fails in the
    next stage, when the label encoder is fitted on the empty label
    array. *)
Theorem no_images_fail_in_encoder {Image : Type}
  (load_image : string -> result Image) (basePath : string)
  (root : option node) :
  (forall t, root = Some t -> has_image t = false) ->
  list_images basePath root = []
  /\ load_dataset load_image basePath root = Ok ([], [])
  /\ load_and_encode load_image basePath root = Raise ValueError.
Proof.
  intros Hno. pose proof (list_images_empty basePath root Hno) as H.
  unfold load_and_encode, load_dataset. rewrite H. repeat split.
Qed.

(** The theorem at the example directory without images. *)
Lemma no_images_fail_in_encoder_witness :
  list_images "dataset" (Some dataset_without_images) = []
  /\ load_dataset (fun _ => Ok tt) "dataset" (Some dataset_without_images)
     = Ok ([], [])
  /\ load_and_encode (fun _ => Ok tt) "dataset" (Some dataset_without_images)
     = Raise ValueError.
Proof.
  apply (no_images_fail_in_encoder (fun _ => Ok tt) "dataset"
           (Some dataset_without_images)).
  intros t Ht. injection Ht as <-. reflexivity.
Defined.

End LoaderFacts.

Module EncoderFacts.
Import Encoder.

(** *** The order on labels *)

Lemma compare_refl x : String.compare x x = Eq.
Proof.
  pose proof (String.compare_antisym x x) as H.
  destruct (String.compare x x); [reflexivity|discriminate..].
Qed.

Lemma label_lt_leb x y : label_lt x y <-> String.leb x y = true /\ x <> y.
Proof.
  unfold label_lt, String.ltb, String.leb.
  destruct (String.compare x y) eqn:E.
  - apply String.compare_eq_iff in E. split; [discriminate|]. tauto.
  - split; [|reflexivity]. intros _. split; [reflexivity|].
    intros ->. rewrite compare_refl in E. discriminate.
  - split; [discriminate|]. intros [H _]. discriminate.
Qed.

Lemma label_lt_irrefl x : ~ label_lt x x.
Proof. intros H. apply label_lt_leb in H as [_ H]. now apply H. Qed.

Lemma leb_trans x y z :
  String.leb x y = true -> String.leb y z = true -> String.leb x z = true.
Proof.
  intros H1 H2. apply Is_true_true.
  apply (@transitivity _ String.le _ x y z); now apply Is_true_true.
Qed.

Lemma label_lt_trans x y z : label_lt x y -> label_lt y z -> label_lt x z.
Proof.
  rewrite !label_lt_leb. intros [H1 N1] [H2 N2].
  split; [eapply leb_trans; eassumption|].
  intros ->. apply N1. now apply String.leb_antisym.
Qed.

Lemma not_leb_lt x y : String.leb x y = false -> label_lt y x.
Proof.
  unfold label_lt, String.ltb, String.leb. rewrite (String.compare_antisym x y).
  destruct (String.compare y x); simpl; congruence.
Qed.

(** *** [np.unique] *)

Lemma elem_of_insert_unique z x l :
  z ∈ insert_unique x l <-> z = x \/ z ∈ l.
Proof.
  induction l as [|y r IH]; cbn [insert_unique].
  - rewrite list_elem_of_singleton, elem_of_nil. tauto.
  - destruct (String.eqb_spec x y) as [->|Hne].
    + rewrite elem_of_cons. tauto.
    + destruct (String.leb x y).
      * rewrite elem_of_cons. tauto.
      * rewrite !elem_of_cons, IH. tauto.
Qed.

Lemma insert_unique_sorted x l :
  StronglySorted label_lt l -> StronglySorted label_lt (insert_unique x l).
Proof.
  induction l as [|y r IH]; cbn [insert_unique]; intros Hs.
  - repeat constructor.
  - apply StronglySorted_inv in Hs as [Hr Hy].
    destruct (String.eqb_spec x y) as [->|Hne]; [now constructor|].
    destruct (String.leb x y) eqn:E.
    + assert (Hxy : label_lt x y) by now apply label_lt_leb.
      constructor; [now constructor|]. constructor; [assumption|].
      eapply Forall_impl; [exact Hy|]. intros z Hz. now apply (label_lt_trans x y z).
    + assert (Hyx : label_lt y x) by now apply not_leb_lt.
      constructor; [now apply IH|].
      rewrite Forall_forall in Hy |- *. intros z Hz.
      apply elem_of_insert_unique in Hz as [->|Hz]; [assumption|now apply Hy].
Qed.

Lemma unique_sorted y : StronglySorted label_lt (unique y).
Proof.
  induction y as [|x r IH]; [constructor|]. now apply insert_unique_sorted.
Qed.

Lemma elem_of_unique z y : z ∈ unique y <-> z ∈ y.
Proof.
  induction y as [|x r IH]; [reflexivity|].
  cbn [unique foldr]. rewrite elem_of_insert_unique, elem_of_cons.
  fold (unique r). now rewrite IH.
Qed.

Lemma sorted_NoDup l : StronglySorted label_lt l -> NoDup l.
Proof.
  induction 1 as [|x l Hs IH Hx]; constructor; [|assumption].
  intros Hin. rewrite Forall_forall in Hx. exact (label_lt_irrefl x (Hx _ Hin)).
Qed.

(** The fitted classes are the distinct labels, each once. *)
Lemma unique_NoDup y : NoDup (unique y).
Proof. apply sorted_NoDup, unique_sorted. Qed.

Lemma unique_not_nil y : y <> [] -> unique y <> [].
Proof.
  destruct y as [|x r]; [congruence|]. intros _ H.
  assert (Hx : x ∈ unique (x :: r)) by (apply elem_of_unique, elem_of_cons; now left).
  rewrite H in Hx. now apply elem_of_nil in Hx.
Qed.

(** On the sorted class list, [searchsorted] finds the position of a
    class that is there. *)
Lemma searchsorted_lookup a v :
  StronglySorted label_lt a -> v ∈ a -> a !! searchsorted a v = Some v.
Proof.
  induction a as [|x r IH]; intros Hs Hin; [now apply elem_of_nil in Hin|].
  apply StronglySorted_inv in Hs as [Hr Hx].
  cbn [searchsorted]. destruct (String.ltb x v) eqn:E.
  - apply elem_of_cons in Hin as [->|Hin].
    + exfalso. exact (label_lt_irrefl x E).
    + cbn. now apply IH.
  - apply elem_of_cons in Hin as [->|Hin]; [reflexivity|].
    rewrite Forall_forall in Hx. specialize (Hx _ Hin).
    unfold label_lt in Hx. congruence.
Qed.

(** *** Indicator rows and argmax *)

Lemma indicator_row_length k i : length (indicator_row k i) = k.
Proof. unfold indicator_row. now rewrite length_fmap, length_seq. Qed.

Lemma indicator_above i n s :
  (i < s)%nat ->
  (fun j => if (j =? i)%nat then 1 else 0) <$> seq s n = replicate n 0.
Proof.
  revert s. induction n as [|n IH]; intros s Hs; [reflexivity|].
  cbn [seq fmap list_fmap replicate].
  destruct (Nat.eqb_spec s i); [lia|]. f_equal. apply IH. lia.
Qed.

Lemma indicator_from s k i :
  (s <= i < s + k)%nat ->
  (fun j => if (j =? i)%nat then 1 else 0) <$> seq s k =
  replicate (i - s) 0 ++ 1 :: replicate (s + k - S i) 0.
Proof.
  revert s. induction k as [|k IH]; intros s H; [lia|].
  cbn [seq fmap list_fmap].
  destruct (Nat.eqb_spec s i) as [->|Hne].
  - replace (i - i)%nat with 0%nat by lia. cbn [replicate app]. f_equal.
    replace (i + S k - S i)%nat with k by lia.
    apply indicator_above. lia.
  - rewrite IH by lia.
    replace (i - s)%nat with (S (i - S s)) by lia.
    replace (S s + k - S i)%nat with (s + S k - S i)%nat by lia.
    reflexivity.
Qed.

(** A row of the indicator matrix: zeros, a single one, zeros. *)
Lemma indicator_row_shape k i :
  (i < k)%nat ->
  indicator_row k i = replicate i 0 ++ 1 :: replicate (k - S i) 0.
Proof.
  intros H. unfold indicator_row. rewrite (indicator_from 0 k i) by lia.
  now rewrite Nat.sub_0_r.
Qed.

Lemma indicator_row_one_hot k i : (i < k)%nat -> one_hot (indicator_row k i).
Proof.
  intros H. exists i. rewrite indicator_row_length. auto.
Qed.

Lemma argmax_from_le bi best i l :
  Forall (fun x => x <= best) l -> argmax_from bi best i l = bi.
Proof.
  revert i. induction l as [|x r IH]; intros i H; [reflexivity|].
  apply Forall_cons in H as [Hx Hr]. cbn [argmax_from].
  destruct (Z.ltb_spec best x); [lia|]. now apply IH.
Qed.

Lemma argmax_from_skip bi best i l1 l2 :
  Forall (fun x => x <= best) l1 ->
  argmax_from bi best i (l1 ++ l2) = argmax_from bi best (i + length l1) l2.
Proof.
  revert i. induction l1 as [|x r IH]; intros i H.
  - cbn. now rewrite Nat.add_0_r.
  - apply Forall_cons in H as [Hx Hr]. cbn [app argmax_from length].
    destruct (Z.ltb_spec best x); [lia|]. rewrite IH by assumption.
    f_equal. lia.
Qed.

Lemma Forall_replicate_le n (x b : Z) :
  x <= b -> Forall (fun y => y <= b) (replicate n x).
Proof. intros H. apply Forall_replicate. exact H. Qed.

(** The argmax of an indicator row is the position of its one. *)
Lemma argmax_indicator_row k i : (i < k)%nat -> argmax (indicator_row k i) = i.
Proof.
  intros H. rewrite indicator_row_shape by assumption.
  destruct i as [|i].
  - cbn [replicate app argmax]. apply argmax_from_le.
    apply Forall_replicate_le. lia.
  - cbn [replicate app argmax].
    rewrite argmax_from_skip by (apply Forall_replicate_le; lia).
    rewrite length_replicate. cbn [argmax_from].
    destruct (Z.ltb_spec 0 1); [|lia].
    rewrite argmax_from_le by (apply Forall_replicate_le; lia). lia.
Qed.

(** *** [np.max] *)

Lemma foldr_max_spec (x : Z) r :
  let m := foldr Z.max x r in
  m ∈ x :: r /\ Forall (fun v => v <= m) (x :: r).
Proof.
  induction r as [|y r IH]; cbn [foldr].
  - split; [apply elem_of_cons; now left|]. repeat constructor. lia.
  - destruct IH as [Hin Hle]. cbn zeta in *.
    set (m := foldr Z.max x r) in *.
    apply Forall_cons in Hle as [Hx Hr].
    split.
    + destruct (Z.max_spec y m) as [[_ ->]|[_ ->]].
      * apply elem_of_cons in Hin as [->|Hin];
          [apply elem_of_cons; now left|].
        apply elem_of_cons; right. apply elem_of_cons; now right.
      * apply elem_of_cons; right. apply elem_of_cons; now left.
    + constructor; [lia|]. constructor; [lia|].
      eapply Forall_impl; [exact Hr|]. cbn. intros; lia.
Qed.

Lemma np_max_bits l :
  Forall (fun v => v = 0 \/ v = 1) l -> 1 ∈ l -> np_max l = Ok 1.
Proof.
  intros Hb H1. destruct l as [|x r]; [now apply elem_of_nil in H1|].
  cbn [np_max]. f_equal.
  destruct (foldr_max_spec x r) as [Hin Hle]. cbn zeta in *.
  rewrite Forall_forall in Hb, Hle.
  specialize (Hle _ H1). cbn in Hle. destruct (Hb _ Hin); lia.
Qed.

Lemma np_max_zeros n : (0 < n)%nat -> np_max (replicate n 0) = Ok 0.
Proof.
  destruct n as [|n]; [lia|]. intros _. cbn [replicate np_max]. f_equal.
  induction n as [|n IH]; [reflexivity|]. cbn [replicate foldr]. now rewrite IH.
Qed.

(** *** Arrays laid out row by row *)

Lemma nth_bind_rows {A} (f : A -> list Z) (w : nat) (l : list A) i j a :
  (forall x, length (f x) = w) ->
  l !! i = Some a -> (j < w)%nat ->
  nth (i * w + j) (l ≫= f) 0 = nth j (f a) 0.
Proof.
  intros Hw. revert i. induction l as [|x r IH]; intros i Hi Hj;
    [discriminate|].
  rewrite bind_cons. destruct i as [|i].
  - injection Hi as ->. cbn [Nat.mul Nat.add].
    apply app_nth1. rewrite Hw. exact Hj.
  - cbn in Hi. rewrite app_nth2 by (rewrite Hw; lia). rewrite Hw.
    replace (S i * w + j - w)%nat with (i * w + j)%nat by lia.
    now apply IH.
Qed.

Lemma fmap_nth_seq (l : list Z) :
  (fun j => nth j l 0) <$> seq 0 (length l) = l.
Proof.
  apply list_eq. intros i. rewrite list_lookup_fmap.
  destruct (le_lt_dec (length l) i) as [H|H].
  - rewrite lookup_seq_ge, lookup_ge_None_2 by assumption. reflexivity.
  - rewrite lookup_seq_lt by assumption. cbn.
    destruct (nth_lookup_or_length l i 0) as [->|]; [reflexivity|lia].
Qed.

Lemma bind_fmap_seq1 (F : nat -> nat -> nat) (s : list nat) :
  s ≫= (fun i => (fun r => F i r) <$> seq 0 1) = (fun i => F i 0%nat) <$> s.
Proof.
  induction s as [|i s IH]; [reflexivity|].
  rewrite bind_cons, IH. reflexivity.
Qed.

(** The argmax along axis 1 of a matrix given by its rows. *)
Lemma argmax_axis1_rows {A} (f : A -> list Z) (w : nat) (l : list A) :
  (0 < w)%nat -> (forall x, length (f x) = w) ->
  argmax_axis1 {| shape := [length l; w]; data := l ≫= f |} =
  Ok {| shape := [length l]; data := (fun x => argmax (f x)) <$> l |}.
Proof.
  intros Hpos Hw. unfold argmax_axis1. cbn [shape data].
  destruct (Nat.eqb_spec w 0); [lia|]. do 2 f_equal.
  change (product []) with 1%nat.
  rewrite (bind_fmap_seq1
             (fun i r => argmax ((fun j => nth ((i * w + j) * 1 + r) (l ≫= f) 0)
                                 <$> seq 0 w))).
  apply list_eq. intros i. rewrite !list_lookup_fmap.
  destruct (l !! i) as [a|] eqn:Hi.
  - assert (Hlt : (i < length l)%nat) by (eapply lookup_lt_Some; eassumption).
    rewrite lookup_seq_lt by assumption. cbn [fmap option_fmap option_map].
    do 2 f_equal. rewrite <- (fmap_nth_seq (f a)), Hw.
    apply list_fmap_ext. intros k j Hj. apply lookup_seq in Hj as [-> Hj].
    cbn [Nat.add].
    replace ((i * w + k) * 1 + 0)%nat with (i * w + k)%nat by lia.
    now apply nth_bind_rows.
  - apply lookup_ge_None in Hi. rewrite lookup_seq_ge by assumption.
    reflexivity.
Qed.

Lemma take_all_Forall2 classes (js : list nat) (labels : list string) :
  Forall2 (fun j v => classes !! j = Some v) js labels ->
  take_all classes js = Ok labels.
Proof.
  induction 1 as [|j v js labels Hj _ IH]; [reflexivity|].
  cbn [take_all]. rewrite Hj, IH. reflexivity.
Qed.

(** Decoding a matrix whose row for each label is the indicator row of
    that label's class gives the labels back. *)
Lemma decode_indicator_rows lb (w : nat) (g : string -> nat) labels :
  (0 < w)%nat ->
  (forall v, v ∈ labels -> (g v < w)%nat /\ classes_ lb !! g v = Some v) ->
  decode lb {| shape := [length labels; w];
               data := labels ≫= (fun v => indicator_row w (g v)) |}
  = Ok (array1 labels).
Proof.
  intros Hw Hg. unfold decode.
  rewrite (argmax_axis1_rows (fun v => indicator_row w (g v)) w labels Hw)
    by (intros; apply indicator_row_length).
  cbn [mbind result_bind]. unfold take. cbn [data shape].
  rewrite (take_all_Forall2 _ _ labels); [reflexivity|].
  apply Forall2_fmap_l, Forall_Forall2_diag. apply Forall_forall.
  intros v Hv. destruct (Hg v Hv) as [Hlt Hl].
  unfold compose. now rewrite argmax_indicator_row.
Qed.

(** *** The encoder, by number of classes *)

Lemma bind_fmap {A B C} (f : A -> B) (h : B -> list C) (l : list A) :
  (f <$> l) ≫= h = l ≫= (fun x => h (f x)).
Proof.
  induction l as [|x r IH]; [reflexivity|].
  rewrite fmap_cons, !bind_cons, IH. reflexivity.
Qed.

Lemma bind_replicate {A B C} (x : B) (h : B -> list C) (l : list A) :
  replicate (length l) x ≫= h = l ≫= (fun _ => h x).
Proof.
  induction l as [|y r IH]; [reflexivity|].
  cbn [length replicate]. rewrite !bind_cons, IH. reflexivity.
Qed.

Lemma fit_transform_nonempty labels :
  labels <> [] ->
  fit_transform labels =
  Ok ({| classes_ := unique labels; y_type_ := type_of_target labels |},
      label_binarize labels (unique labels)).
Proof. destruct labels; [congruence|reflexivity]. Qed.

Lemma class_index labels v :
  v ∈ labels ->
  unique labels !! searchsorted (unique labels) v = Some v.
Proof.
  intros Hv. apply searchsorted_lookup; [apply unique_sorted|].
  now apply elem_of_unique.
Qed.

Lemma indicator_row_bits k i :
  Forall (fun v => v = 0 \/ v = 1) (indicator_row k i).
Proof.
  unfold indicator_row. apply Forall_fmap, Forall_forall. intros j _. cbn.
  destruct (j =? i)%nat; auto.
Qed.

Lemma one_in_indicator_row k i : (i < k)%nat -> 1 ∈ indicator_row k i.
Proof.
  intros H. rewrite indicator_row_shape by assumption.
  apply elem_of_app. right. apply elem_of_cons. now left.
Qed.

(** One class: a single column of ones. *)
Lemma encode_one labels :
  labels <> [] -> n_classes labels = 1%nat ->
  encode labels =
  Ok ({| classes_ := unique labels; y_type_ := binary |},
      {| shape := [length labels; 1%nat];
         data := labels ≫= (fun _ => indicator_row 1 0) |}).
Proof.
  intros Hne Hk. unfold n_classes in Hk. unfold encode.
  rewrite (fit_transform_nonempty _ Hne). cbn [mbind result_bind].
  unfold label_binarize, type_of_target. rewrite Hk. cbn [Nat.leb].
  unfold to_categorical. cbn [shape data rev app].
  rewrite np_max_zeros by (destruct labels; [congruence|cbn; lia]).
  cbn [mbind result_bind]. do 3 f_equal.
  apply (bind_replicate 0 (fun v => indicator_row 1 (Z.to_nat v))).
Qed.

Lemma class_bit_index labels v :
  n_classes labels = 2%nat -> v ∈ labels ->
  class_bit (unique labels) v = Z.of_nat (searchsorted (unique labels) v)
  /\ (searchsorted (unique labels) v < 2)%nat.
Proof.
  intros Hk Hv. pose proof (class_index labels v Hv) as Hi.
  apply lookup_lt_Some in Hi. unfold n_classes in Hk. rewrite Hk in Hi.
  split; [|exact Hi]. unfold class_bit.
  destruct (searchsorted (unique labels) v) as [|[|i]]; [reflexivity..|lia].
Qed.

(** Two classes: a two-column matrix, the row of a label being the
    indicator row of its class. *)
Lemma encode_two labels :
  n_classes labels = 2%nat ->
  encode labels =
  Ok ({| classes_ := unique labels; y_type_ := binary |},
      {| shape := [length labels; 2%nat];
         data := labels ≫=
                 (fun v => indicator_row 2
                             (Z.to_nat (class_bit (unique labels) v))) |}).
Proof.
  intros Hk. pose proof Hk as Hk'. unfold n_classes in Hk.
  assert (Hne : labels <> []) by (intros ->; discriminate Hk).
  unfold encode. rewrite (fit_transform_nonempty _ Hne).
  cbn [mbind result_bind].
  unfold label_binarize, type_of_target. rewrite Hk. cbn [Nat.leb].
  unfold to_categorical. cbn [shape data rev app].
  assert (E : (fun row => List.last row 0) <$>
                (indicator_row 2 <$> (searchsorted (unique labels) <$> labels))
              = class_bit (unique labels) <$> labels)
    by (rewrite <- !list_fmap_compose; reflexivity).
  rewrite E. clear E.
  rewrite np_max_bits.
  - cbn [mbind result_bind]. change (Z.to_nat (1 + 1)) with 2%nat.
    do 3 f_equal.
    apply (bind_fmap (class_bit (unique labels))
             (fun v => indicator_row 2 (Z.to_nat v))).
  - apply Forall_fmap, Forall_forall. intros v Hv. unfold compose.
    destruct (class_bit_index labels v Hk' Hv) as [-> Hlt].
    destruct (searchsorted (unique labels) v) as [|[|i]]; [auto..|lia].
  - destruct (unique labels) as [|c0 [|c1 [|? ?]]] eqn:Hu; try discriminate Hk.
    assert (Hc1 : c1 ∈ labels).
    { apply elem_of_unique. rewrite Hu. apply elem_of_cons. right.
      apply elem_of_cons. now left. }
    apply list_elem_of_fmap. exists c1. split; [|assumption].
    destruct (class_bit_index labels c1 Hk' Hc1) as [Hb Hlt].
    rewrite Hu in Hb, Hlt. rewrite Hb.
    pose proof (class_index labels c1 Hc1) as Hi. rewrite Hu in Hi.
    pose proof (unique_NoDup labels) as Hnd. rewrite Hu in Hnd.
    apply NoDup_cons in Hnd as [Hnot _].
    destruct (searchsorted [c0; c1] c1) as [|[|i]]; [|reflexivity|lia].
    injection Hi as ->. exfalso. apply Hnot. apply elem_of_cons. now left.
Qed.

(** Three classes or more: the binarizer already returns the indicator
    matrix, and [to_categorical] encodes each of its bits again. *)
Lemma encode_many labels :
  (3 <= n_classes labels)%nat ->
  exists Y,
    encode labels =
    Ok ({| classes_ := unique labels; y_type_ := multiclass |}, Y)
    /\ shape Y = [length labels; n_classes labels; 2%nat].
Proof.
  intros Hk. unfold n_classes in *.
  assert (Hne : labels <> []) by (intros ->; cbn in Hk; lia).
  unfold encode. rewrite (fit_transform_nonempty _ Hne).
  cbn [mbind result_bind].
  unfold label_binarize, type_of_target.
  destruct (length (unique labels)) as [|[|[|k]]] eqn:Hlen; [lia..|].
  cbn [Nat.leb]. unfold to_categorical. cbn [shape data rev app].
  rewrite np_max_bits.
  - cbn [mbind result_bind]. change (Z.to_nat (1 + 1)) with 2%nat.
    eexists. split; reflexivity.
  - rewrite list_join_bind, bind_fmap, bind_fmap.
    apply Forall_forall. intros b Hb.
    apply list_elem_of_bind in Hb as (v & Hb & _).
    pose proof (indicator_row_bits (S (S (S k))) (searchsorted (unique labels) v)) as H.
    rewrite Forall_forall in H. now apply H.
  - destruct labels as [|v0 r]; [congruence|].
    rewrite list_join_bind, bind_fmap, bind_fmap, bind_cons.
    apply elem_of_app. left. apply one_in_indicator_row.
    rewrite <- Hlen. eapply lookup_lt_Some.
    apply (class_index (v0 :: r) v0). apply elem_of_cons. now left.
Qed.

Lemma decode_shape lb Y r n rest k :
  shape Y = n :: k :: rest -> decode lb Y = Ok r -> shape r = n :: rest.
Proof.
  intros Hs. unfold decode, argmax_axis1. rewrite Hs.
  destruct (k =? 0)%nat; [discriminate|]. cbn [mbind result_bind].
  unfold take. cbn [shape data].
  destruct (take_all _ _); cbn [mbind result_bind]; [|discriminate].
  intros H. injection H as <-. reflexivity.
Qed.

Lemma n_classes_pos labels : labels <> [] -> (1 <= n_classes labels)%nat.
Proof.
  intros H. apply unique_not_nil in H. unfold n_classes.
  destruct (unique labels); [congruence|cbn; lia].
Qed.

Lemma round_trip_one labels :
  labels <> [] -> n_classes labels = 1%nat ->
  round_trip labels = Ok (array1 labels).
Proof.
  intros Hne Hk. unfold round_trip. rewrite (encode_one _ Hne Hk).
  cbn [mbind result_bind].
  apply (decode_indicator_rows _ 1 (fun _ => 0%nat)); [lia|].
  intros v Hv. split; [lia|]. cbn [classes_].
  pose proof (class_index labels v Hv) as Hi.
  pose proof (lookup_lt_Some _ _ _ Hi) as Hlt.
  unfold n_classes in Hk. rewrite Hk in Hlt.
  destruct (searchsorted (unique labels) v); [exact Hi|lia].
Qed.

Lemma round_trip_two labels :
  n_classes labels = 2%nat -> round_trip labels = Ok (array1 labels).
Proof.
  intros Hk. unfold round_trip. rewrite (encode_two _ Hk).
  cbn [mbind result_bind].
  apply (decode_indicator_rows _ 2
           (fun v => Z.to_nat (class_bit (unique labels) v))); [lia|].
  intros v Hv. cbn [classes_].
  destruct (class_bit_index labels v Hk Hv) as [-> Hlt].
  rewrite Nat2Z.id. split; [assumption|]. now apply class_index.
Qed.

Lemma round_trip_many labels :
  (3 <= n_classes labels)%nat -> round_trip labels <> Ok (array1 labels).
Proof.
  intros Hk Hrt. unfold round_trip in Hrt.
  destruct (encode_many labels Hk) as (Y & HY & Hs). rewrite HY in Hrt.
  cbn [mbind result_bind] in Hrt.
  apply (decode_shape _ _ _ _ _ _ Hs) in Hrt. discriminate Hrt.
Qed.

Lemma bind_as_join {A B} (f : A -> list B) (l : list A) :
  l ≫= f = mjoin (f <$> l).
Proof. now rewrite list_join_bind, bind_fmap. Qed.

Lemma two_classes_valid labels :
  n_classes labels = 2%nat ->
  two_column_one_hot (length labels)
    {| shape := [length labels; 2%nat];
       data := labels ≫=
               (fun v => indicator_row 2
                           (Z.to_nat (class_bit (unique labels) v))) |}.
Proof.
  intros Hk. split; [reflexivity|].
  exists ((fun v => indicator_row 2 (Z.to_nat (class_bit (unique labels) v)))
          <$> labels).
  split; [now rewrite length_fmap|]. split; [|apply bind_as_join].
  apply Forall_fmap, Forall_forall. intros v Hv. unfold compose.
  split; [apply indicator_row_length|].
  apply indicator_row_one_hot.
  destruct (class_bit_index labels v Hk Hv) as [-> Hlt]. now rewrite Nat2Z.id.
Qed.

Lemma ones_column {A} (l : list A) :
  l ≫= (fun _ => indicator_row 1 0) = replicate (length l) 1.
Proof.
  induction l as [|x r IH]; [reflexivity|].
  rewrite bind_cons, IH. reflexivity.
Qed.

Lemma class_count_cases labels :
  labels <> [] ->
  n_classes labels = 1%nat \/ n_classes labels = 2%nat
  \/ (3 <= n_classes labels)%nat.
Proof. intros H. apply n_classes_pos in H. lia. Qed.

(** C3, as stated, fails: with three classes the encoded array has rank
    three, its argmax along axis 1 is a pair per sample, and indexing the
    class list with it does not give the labels back. *)
Lemma round_trip_three_classes :
  round_trip ["with_mask"; "without_mask"; "incorrect_mask"]
  = Ok {| shape := [3%nat; 2%nat];
          data := ["incorrect_mask"; "with_mask";
                   "incorrect_mask"; "without_mask";
                   "with_mask"; "incorrect_mask"] |}
  /\ round_trip ["with_mask"; "without_mask"; "incorrect_mask"]
     <> Ok (array1 ["with_mask"; "without_mask"; "incorrect_mask"]).
Proof. split; [vm_compute; reflexivity|vm_compute; discriminate]. Qed.

(** C3, amended.  For a non-empty label array the encoding round-trips
    (the argmax of each encoded row, used as an index into the fitted
    class list, gives the label back) exactly when the array holds at
    most two distinct labels. *)
Theorem round_trip_at_most_two (labels : list string) :
  labels <> [] ->
  (round_trip labels = Ok (array1 labels) <-> (n_classes labels <= 2)%nat).
Proof.
  intros Hne. split.
  - intros Hrt. destruct (le_lt_dec (n_classes labels) 2) as [H|H];
      [exact H|].
    exfalso. exact (round_trip_many labels H Hrt).
  - intros Hk.
    destruct (class_count_cases labels Hne) as [H|[H|H]];
      [now apply round_trip_one|now apply round_trip_two|lia].
Qed.

(** The theorem at a two-class label array. *)
Lemma round_trip_at_most_two_witness :
  round_trip ["with_mask"; "without_mask"; "with_mask"]
  = Ok (array1 ["with_mask"; "without_mask"; "with_mask"]).
Proof.
  apply (round_trip_at_most_two ["with_mask"; "without_mask"; "with_mask"]).
  - discriminate.
  - vm_compute. lia.
Defined.

(** C9, as stated, fails for a single class: the matrix then has one
    column per fitted class, and its argmax still decodes to the labels. *)
Lemma one_class_still_decodes :
  exists lb Y,
    encode ["with_mask"; "with_mask"] = Ok (lb, Y)
    /\ classes_ lb = ["with_mask"]
    /\ shape Y = [2%nat; length (classes_ lb)]
    /\ data Y = [1; 1]
    /\ decode lb Y = Ok (array1 ["with_mask"; "with_mask"]).
Proof.
  eexists _, _. split; [vm_compute; reflexivity|]. repeat split.
Qed.

(** C9, amended.  The encoder yields a valid two-column one-hot matrix
    exactly when the labels hold exactly two classes, and then it decodes.
    With one class it yields a single column of ones, which still decodes
    to the one fitted class but has one column where the output head has
    two units.  With three or more classes it yields an array of rank
    three (samples x classes x 2), whose argmax along axis 1 does not give
    the labels back. *)
Theorem encoding_by_class_count (labels : list string) :
  labels <> [] ->
  exists lb Y,
    encode labels = Ok (lb, Y)
    /\ classes_ lb = unique labels
    /\ (n_classes labels = 2%nat ->
        two_column_one_hot (length labels) Y
        /\ decode lb Y = Ok (array1 labels))
    /\ (n_classes labels = 1%nat ->
        shape Y = [length labels; 1%nat]
        /\ data Y = replicate (length labels) 1
        /\ decode lb Y = Ok (array1 labels))
    /\ ((3 <= n_classes labels)%nat ->
        shape Y = [length labels; n_classes labels; 2%nat]
        /\ decode lb Y <> Ok (array1 labels))
    /\ (two_column_one_hot (length labels) Y <-> n_classes labels = 2%nat).
Proof.
  intros Hne. destruct (class_count_cases labels Hne) as [H|[H|H]].
  - pose proof (round_trip_one labels Hne H) as Hrt. unfold round_trip in Hrt.
    rewrite (encode_one labels Hne H) in Hrt |- *.
    cbn [mbind result_bind] in Hrt.
    eexists _, _. split; [reflexivity|]. split; [reflexivity|].
    split; [intros; lia|]. split.
    { intros _. split; [reflexivity|]. split; [apply ones_column|exact Hrt]. }
    split; [intros; lia|]. split; [|intros; lia].
    intros [Hs _]. discriminate Hs.
  - pose proof (round_trip_two labels H) as Hrt. unfold round_trip in Hrt.
    rewrite (encode_two labels H) in Hrt |- *.
    cbn [mbind result_bind] in Hrt.
    eexists _, _. split; [reflexivity|]. split; [reflexivity|].
    split; [intros _; split; [now apply two_classes_valid|exact Hrt]|].
    split; [intros; lia|]. split; [intros; lia|].
    split; [intros _; exact H|intros _; now apply two_classes_valid].
  - pose proof (round_trip_many labels H) as Hrt. unfold round_trip in Hrt.
    destruct (encode_many labels H) as (Y & HY & Hs).
    rewrite HY in Hrt |- *. cbn [mbind result_bind] in Hrt.
    eexists _, _. split; [reflexivity|]. split; [reflexivity|].
    split; [intros; lia|]. split; [intros; lia|].
    split; [intros _; split; assumption|].
    split; [|intros; lia]. intros [Hs' _]. rewrite Hs in Hs'. discriminate Hs'.
Qed.

(** The theorem at a two-class label array: a valid two-column matrix
    that decodes. *)
Lemma encoding_by_class_count_witness :
  exists lb Y,
    encode ["with_mask"; "without_mask"] = Ok (lb, Y)
    /\ two_column_one_hot 2 Y
    /\ decode lb Y = Ok (array1 ["with_mask"; "without_mask"]).
Proof.
  destruct (encoding_by_class_count ["with_mask"; "without_mask"]
              ltac:(discriminate)) as (lb & Y & He & _ & H2 & _).
  exists lb, Y. split; [exact He|]. apply H2. reflexivity.
Defined.

End EncoderFacts.

Module NetworkFacts.
Import Network.

Section Facts.

Context {W : Type}.
Variable dense_128 dense_2 : list W.
Variable update : nat -> gmap nat (@Layer W) -> nat -> list W.

Implicit Types (h : gmap nat (@Layer W)) (l : @Layer W).

(** What the freezing loop does to each object of the heap. *)
Lemma freeze_lookup base h id :
  freeze base h !! id =
  if decide (id ∈ base) then set_trainable false <$> h !! id else h !! id.
Proof.
  unfold freeze. revert h. induction base as [|a base IH]; intros h.
  - cbn [foldl]. destruct (decide (id ∈ [])) as [H|H]; [|reflexivity].
    now apply elem_of_nil in H.
  - cbn [foldl]. rewrite IH, lookup_alter. clear IH.
    destruct (decide (id ∈ a :: base)) as [Hc|Hc];
      destruct (decide (id ∈ base)) as [Hb|Hb];
      destruct (decide (a = id)) as [->|Hne];
      try reflexivity;
      try (destruct (h !! id); reflexivity);
      rewrite elem_of_cons in Hc; exfalso; intuition congruence.
Qed.

(** A new layer leaves the objects already there alone. *)
Lemma new_layer_old nm ws h id l :
  h !! id = Some l -> (new_layer nm ws h).2 !! id = Some l.
Proof.
  intros H. unfold new_layer. cbn [snd].
  rewrite lookup_insert_ne; [exact H|].
  intros <-. pose proof (is_fresh (dom h)) as Hf.
  apply not_elem_of_dom in Hf. congruence.
Qed.

Lemma new_layer_new nm ws h :
  (new_layer nm ws h).2 !! (new_layer nm ws h).1
  = Some {| name := nm; trainable := true; weights := ws |}
  /\ h !! (new_layer nm ws h).1 = None.
Proof.
  unfold new_layer. cbn [fst snd]. rewrite lookup_insert_eq.
  split; [reflexivity|]. apply not_elem_of_dom, is_fresh.
Qed.

Lemma head_model_old h id l :
  h !! id = Some l -> (head_model dense_128 dense_2 h).2 !! id = Some l.
Proof.
  intros H. unfold head_model.
  apply (new_layer_old "average_pooling2d" []) in H.
  destruct (new_layer "average_pooling2d" [] h) as [l1 h1]; cbn [snd] in H.
  apply (new_layer_old "flatten" []) in H.
  destruct (new_layer "flatten" [] h1) as [l2 h2]; cbn [snd] in H.
  apply (new_layer_old "dense" dense_128) in H.
  destruct (new_layer "dense" dense_128 h2) as [l3 h3]; cbn [snd] in H.
  apply (new_layer_old "dropout" []) in H.
  destruct (new_layer "dropout" [] h3) as [l4 h4]; cbn [snd] in H.
  apply (new_layer_old "dense_1" dense_2) in H.
  destruct (new_layer "dense_1" dense_2 h4) as [l5 h5]; cbn [snd] in H.
  exact H.
Qed.

(** The five layers of the head are new objects, trainable as made. *)
Lemma head_model_new h id :
  id ∈ (head_model dense_128 dense_2 h).1 ->
  h !! id = None
  /\ exists l, (head_model dense_128 dense_2 h).2 !! id = Some l
               /\ trainable l = true.
Proof.
  unfold head_model.
  pose proof (new_layer_new "average_pooling2d" [] h) as [N1 F1].
  pose proof (fun id l => new_layer_old "average_pooling2d" [] h id l) as O1.
  destruct (new_layer "average_pooling2d" [] h) as [l1 h1].
  pose proof (new_layer_new "flatten" [] h1) as [N2 F2].
  pose proof (fun id l => new_layer_old "flatten" [] h1 id l) as O2.
  destruct (new_layer "flatten" [] h1) as [l2 h2].
  pose proof (new_layer_new "dense" dense_128 h2) as [N3 F3].
  pose proof (fun id l => new_layer_old "dense" dense_128 h2 id l) as O3.
  destruct (new_layer "dense" dense_128 h2) as [l3 h3].
  pose proof (new_layer_new "dropout" [] h3) as [N4 F4].
  pose proof (fun id l => new_layer_old "dropout" [] h3 id l) as O4.
  destruct (new_layer "dropout" [] h3) as [l4 h4].
  pose proof (new_layer_new "dense_1" dense_2 h4) as [N5 F5].
  pose proof (fun id l => new_layer_old "dense_1" dense_2 h4 id l) as O5.
  destruct (new_layer "dense_1" dense_2 h4) as [l5 h5].
  cbn [fst snd] in *.
  assert (Hnone : forall j, h4 !! j = None -> h !! j = None).
  { intros j Hj. destruct (h !! j) as [l|] eqn:E; [|reflexivity].
    apply O1, O2, O3, O4 in E. congruence. }
  intros Hin. repeat (apply elem_of_cons in Hin as [->|Hin]).
  - split; [assumption|]. eexists. split; [eauto 10|reflexivity].
  - split.
    + destruct (h !! l2) as [l|] eqn:E; [|reflexivity].
      apply O1 in E. congruence.
    + eexists. split; [eauto 10|reflexivity].
  - split.
    + destruct (h !! l3) as [l|] eqn:E; [|reflexivity].
      apply O1, O2 in E. congruence.
    + eexists. split; [eauto 10|reflexivity].
  - split.
    + destruct (h !! l4) as [l|] eqn:E; [|reflexivity].
      apply O1, O2, O3 in E. congruence.
    + eexists. split; [eauto 10|reflexivity].
  - split; [now apply Hnone|]. eexists. split; [eauto 10|reflexivity].
  - now apply elem_of_nil in Hin.
Qed.

(** A step leaves alone every layer that is frozen, and every object
    that is not a layer of the model. *)
Lemma train_step_frame layers t h id l :
  h !! id = Some l -> trainable l = false \/ id ∉ layers ->
  train_step update layers t h !! id = Some l.
Proof.
  intros Hl Hor. unfold train_step. generalize h at 1 as snapshot.
  intros snapshot. revert h Hl.
  induction layers as [|a layers IH]; intros h Hl; [exact Hl|].
  cbn [foldl]. apply IH.
  - destruct Hor as [Hf|Hn]; [now left|right].
    intros Hin. apply Hn. apply elem_of_cons. now right.
  - rewrite lookup_alter. destruct (decide (a = id)) as [->|Hne]; [|exact Hl].
    rewrite Hl. cbn. destruct Hor as [Hf|Hn].
    + unfold apply_update. now rewrite Hf.
    + exfalso. apply Hn. apply elem_of_cons. now left.
Qed.

Lemma fit_frame layers steps t h id l :
  h !! id = Some l -> trainable l = false \/ id ∉ layers ->
  fit update layers steps t h !! id = Some l.
Proof.
  revert t h. induction steps as [|n IH]; intros t h Hl Hor; [exact Hl|].
  cbn [fit]. apply IH; [|exact Hor]. now apply train_step_frame.
Qed.

(** C5. Before training begins every layer of the backbone is marked
    non-trainable; training leaves each of them as it was, weights
    included; a layer whose weights differ after training is a layer of
    the head and not of the backbone; and the layers of the head are
    trainable. *)
Theorem backbone_frozen (base_layers : list nat) (steps : nat)
  (h : gmap nat (@Layer W)) :
  (forall id, id ∈ base_layers -> is_Some (h !! id)) ->
  let r := assemble_and_train dense_128 dense_2 update base_layers steps h in
  (forall id l, id ∈ base_layers -> h !! id = Some l ->
     at_compile r !! id = Some (set_trainable false l)
     /\ after_fit r !! id = Some (set_trainable false l))
  /\ (forall id l0 l1,
        at_compile r !! id = Some l0 -> after_fit r !! id = Some l1 ->
        weights l1 <> weights l0 ->
        id ∈ head_layers r /\ id ∉ base_layers)
  /\ (forall id, id ∈ head_layers r ->
        exists l, at_compile r !! id = Some l /\ trainable l = true).
Proof.
  intros Hbase. unfold assemble_and_train.
  pose proof (head_model_old h) as Hold.
  pose proof (head_model_new h) as Hnew.
  destruct (head_model dense_128 dense_2 h) as [head h1].
  cbn [fst snd] in Hold, Hnew. cbn zeta.
  cbn [at_compile after_fit head_layers model_layers].
  assert (Hfrozen : forall id l, id ∈ base_layers -> h !! id = Some l ->
            freeze base_layers h1 !! id = Some (set_trainable false l)).
  { intros id l Hin Hl. rewrite freeze_lookup, decide_True by assumption.
    now rewrite (Hold _ _ Hl). }
  split; [|split].
  - intros id l Hin Hl. split; [now apply Hfrozen|].
    apply fit_frame; [now apply Hfrozen|now left].
  - intros id l0 l1 H0 H1 Hw.
    destruct (decide (id ∈ base_layers)) as [Hin|Hnin].
    + exfalso. destruct (Hbase _ Hin) as [l Hl].
      pose proof (Hfrozen _ _ Hin Hl) as Hc.
      rewrite (fit_frame _ steps 0 _ _ _ Hc (or_introl eq_refl)) in H1.
      congruence.
    + split; [|assumption].
      destruct (decide (id ∈ head)) as [Hh|Hnh]; [assumption|].
      exfalso. rewrite (fit_frame _ steps 0 _ _ _ H0) in H1; [congruence|].
      right. intros [?|?]%elem_of_app; contradiction.
  - intros id Hin. destruct (Hnew _ Hin) as (Hnone & l & Hl & Ht).
    exists l. split; [|assumption].
    rewrite freeze_lookup, decide_False; [assumption|].
    intros Hb. destruct (Hbase _ Hb) as [? ?]. congruence.
Qed.

End Facts.

(** The theorem at the example backbone, trained for two steps. *)
Lemma backbone_frozen_witness :
  at_compile example_run !! 0%nat = Some (set_trainable false example_backbone)
  /\ after_fit example_run !! 0%nat
     = Some (set_trainable false example_backbone).
Proof.
  refine (proj1 (backbone_frozen [0; 0] [0] (fun _ _ _ => [7]) [0%nat] 2
                   {[0%nat := example_backbone]} _)
            0%nat example_backbone _ _).
  - intros id Hid. apply list_elem_of_singleton in Hid. subst id.
    rewrite lookup_singleton_eq. eauto.
  - apply list_elem_of_singleton. reflexivity.
  - apply lookup_singleton_eq.
Defined.

End NetworkFacts.

Module CliFacts.
Import Cli.

Lemma option_string_actions_ap :
  option_string_actions ap =
  [("-h", help_option); ("--help", help_option);
   ("-d", dataset_option); ("--dataset", dataset_option);
   ("-p", plot_option); ("--plot", plot_option);
   ("-m", model_option); ("--model", model_option)].
Proof. reflexivity. Qed.

Lemma find_option_elem s a :
  find_option ap s = Some a -> (s, a) ∈ option_string_actions ap.
Proof.
  unfold find_option. intros H.
  destruct (List.find _ _) as [[s' a']|] eqn:E; [|discriminate].
  cbn in H. injection H as ->.
  apply find_some in E as [Hin Heq]. cbn [fst] in Heq.
  apply String.eqb_eq in Heq as ->. now apply list_elem_of_In.
Qed.

Lemma split_at_spec c s o e :
  split_at c s = Some (o, e) -> s = o +:+ String c e.
Proof.
  revert o. induction s as [|x r IH]; intros o H; [discriminate|].
  cbn [split_at] in H. destruct (Ascii.eqb_spec x c) as [->|Hne].
  - now injection H as <- <-.
  - destruct (split_at c r) as [[a b]|]; [|discriminate].
    cbn in H. injection H as <- <-.
    change (String x r = String x (a +:+ String c b)). f_equal. now apply IH.
Qed.

(** The match on the second character, as a test. *)
Lemma get_option_tuples_second c r :
  get_option_tuples ap (String "-" (String c r)) =
  if Ascii.eqb c "-" then
    omap (fun sa : string * argument =>
            if String.prefix (before_equals (String "-" (String "-" r)))
                 (fst sa)
            then Some (snd sa, fst sa,
                       snd <$> split_at "=" (String "-" (String "-" r)))
            else None)
         (option_string_actions ap)
  else
    omap (fun sa : string * argument =>
            if String.eqb (fst sa) (String "-" (String c EmptyString))
            then Some (snd sa, fst sa, Some r)
            else if String.prefix (String "-" (String c r)) (fst sa)
            then Some (snd sa, fst sa, None) else None)
         (option_string_actions ap).
Proof.
  destruct (Ascii.eqb_spec c "-") as [->|Hc].
  - cbn [get_option_tuples]. unfold before_equals.
    destruct (split_at "=" _) as [[o e]|]; reflexivity.
  - destruct c as [[] [] [] [] [] [] [] []]; try reflexivity.
    congruence.
Qed.

Lemma prefix_cons a s1 b s2 :
  String.prefix (String a s1) (String b s2) =
  if Ascii.eqb a b then String.prefix s1 s2 else false.
Proof.
  cbn [String.prefix]. destruct (ascii_dec a b) as [->|H].
  - now rewrite Ascii.eqb_refl.
  - apply Ascii.eqb_neq in H. now rewrite H.
Qed.

Lemma prefix_nil_l s : String.prefix EmptyString s = true.
Proof. destruct s; reflexivity. Qed.

Lemma prefix_refl s : String.prefix s s = true.
Proof.
  induction s as [|c s IH]; [reflexivity|].
  now rewrite prefix_cons, Ascii.eqb_refl.
Qed.

Lemma prefix_app s t : String.prefix s (s +:+ t) = true.
Proof.
  induction s as [|c s IH]; [apply prefix_nil_l|].
  change (String c s +:+ t) with (String c (s +:+ t)).
  now rewrite prefix_cons, Ascii.eqb_refl.
Qed.


Lemma before_equals_cons c r :
  c <> "="%char -> before_equals (String c r) = String c (before_equals r).
Proof.
  intros Hc. unfold before_equals. cbn [split_at].
  destruct (Ascii.eqb_spec c "="); [congruence|].
  destruct (split_at "=" r) as [[o e]|]; reflexivity.
Qed.

Ltac option_cases H :=
  rewrite option_string_actions_ap in H;
  repeat (apply elem_of_cons in H as [H|H]);
  [injection H as ? ?; subst ..|now apply elem_of_nil in H].

Ltac in_ap :=
  unfold ap; repeat first [apply list_elem_of_here | apply list_elem_of_further].

Ltac split_chars :=
  repeat match goal with
  | H : context [if String.eqb ?a ?b then _ else _] |- _ =>
      destruct (String.eqb_spec a b); [try discriminate|]
  | H : String _ _ = String _ _ |- _ => inversion H; clear H; subst
  | H : context [String.prefix (String _ _) (String _ _)] |- _ =>
      rewrite prefix_cons in H
  | H : context [String.prefix EmptyString _] |- _ =>
      cbn [String.prefix] in H
  | H : context [String.prefix (String _ _) EmptyString] |- _ =>
      cbn [String.prefix] in H
  | H : context [if Ascii.eqb ?a ?b then _ else _] |- _ =>
      destruct (Ascii.eqb_spec a b); [subst|try congruence]
  | H : Some _ = Some _ |- _ => inversion H; clear H; subst
  | H : None = Some _ |- _ => discriminate H
  | H : false = true |- _ => discriminate H
  | H : (if ?b then Some _ else None) = Some _ |- _ =>
      destruct b eqn:?; [|discriminate H]
  end.

(** The short way of writing an option. *)
Lemma spells_short a short long s :
  option_strings a = [short; long] ->
  String.prefix "--" short = false ->
  String.prefix short s = true -> spells a s = true.
Proof.
  intros Ho Hs Hp. unfold spells. rewrite Ho. cbn [existsb].
  now rewrite Hs, Hp.
Qed.

(** The long way of writing an option. *)
Lemma spells_long a short long s :
  option_strings a = [short; long] ->
  String.prefix "--" long = true ->
  (3 <= String.length (before_equals s))%nat ->
  String.prefix (before_equals s) long = true -> spells a s = true.
Proof.
  intros Ho Hl Hn Hp. unfold spells. rewrite Ho. cbn [existsb].
  rewrite Hl, Hp. apply Nat.leb_le in Hn. rewrite Hn.
  apply orb_true_r.
Qed.

(** An abbreviation [--x...] that selects an option spells it. *)
Lemma long_tuple_spells c3 r3 (expl : option string) a o e :
  c3 <> "="%char ->
  (a, o, e) ∈ omap (fun sa : string * argument =>
                     if String.prefix
                          (before_equals
                             (String "-" (String "-" (String c3 r3))))
                          (fst sa)
                     then Some (snd sa, fst sa, expl) else None)
                  (option_string_actions ap) ->
  a ∈ ap /\ spells a (String "-" (String "-" (String c3 r3))) = true.
Proof.
  intros Hc3 H. apply list_elem_of_omap in H as ([s' a'] & Hin & Hc).
  cbn [fst snd] in Hc.
  destruct (String.prefix _ s') eqn:Hp; [|discriminate].
  injection Hc as <- <- <-.
  assert (Hlen : (3 <= String.length
                         (before_equals
                            (String "-" (String "-" (String c3 r3)))))%nat).
  { rewrite !before_equals_cons by (assumption || discriminate).
    cbn [String.length]. lia. }
  assert (Hdash : String.prefix "--" s' = true).
  { rewrite !before_equals_cons in Hp by (assumption || discriminate).
    destruct s' as [|x1 s1]; [discriminate Hp|]. rewrite prefix_cons in Hp.
    destruct (Ascii.eqb_spec "-" x1) as [<-|]; [|discriminate Hp].
    destruct s1 as [|x2 s2]; [discriminate Hp|]. rewrite prefix_cons in Hp.
    destruct (Ascii.eqb_spec "-" x2) as [<-|]; [|discriminate Hp].
    now rewrite !prefix_cons, prefix_nil_l. }
  option_cases Hin; try discriminate Hdash;
    (split; [in_ap|]);
    (eapply spells_long; [reflexivity|reflexivity|exact Hlen|exact Hp]).
Qed.

(** A string [-x...] that selects an option starts with its short
    form. *)
Lemma short_tuple_spells c2 r2 a o e :
  c2 <> "-"%char ->
  (a, o, e) ∈ omap (fun sa : string * argument =>
                     if String.eqb (fst sa) (String "-" (String c2 EmptyString))
                     then Some (snd sa, fst sa, Some r2)
                     else if String.prefix (String "-" (String c2 r2)) (fst sa)
                     then Some (snd sa, fst sa, None) else None)
                  (option_string_actions ap) ->
  a ∈ ap /\ spells a (String "-" (String c2 r2)) = true.
Proof.
  intros Hc2 H. apply list_elem_of_omap in H as ([s' a'] & Hin & Hc).
  cbn [fst snd] in Hc.
  option_cases Hin; split_chars; try congruence;
    (split; [in_ap|]);
    (eapply spells_short; [reflexivity|reflexivity|];
     rewrite ?prefix_cons; cbn [Ascii.eqb Bool.eqb];
     rewrite ?prefix_nil_l; reflexivity).
Qed.

Lemma tuples_spell c2 r2 a o e :
  get_option_tuples ap (String "-" (String c2 r2)) = [(a, o, e)] ->
  a ∈ ap /\ spells a (String "-" (String c2 r2)) = true.
Proof.
  intros H.
  assert (Hin : (a, o, e) ∈ get_option_tuples ap (String "-" (String c2 r2)))
    by (rewrite H; apply list_elem_of_here).
  revert H Hin. rewrite get_option_tuples_second.
  destruct (Ascii.eqb_spec c2 "-") as [->|Hc2];
    [|intros _ Hin; exact (short_tuple_spells _ _ _ _ _ Hc2 Hin)].
  destruct r2 as [|c3 r3]; [discriminate|].
  destruct (Ascii.eqb_spec c3 "=") as [->|Hc3]; [discriminate|].
  intros _ Hin. exact (long_tuple_spells _ _ _ _ _ _ Hc3 Hin).
Qed.

(** What the parser reads as an option is a way of writing it. *)
Lemma resolve_spells s a o e :
  parse_optional ap s = Flag a o e -> a ∈ ap /\ spells a s = true.
Proof.
  unfold parse_optional. destruct s as [|c r]; [discriminate|].
  destruct (Ascii.eqb_spec c "-") as [->|Hc]; cbn [negb]; [|discriminate].
  destruct (find_option ap (String "-" r)) as [a0|] eqn:Ef.
  { intros H. injection H as -> <- <-. apply find_option_elem in Ef.
    option_cases Ef; (split; [in_ap|reflexivity]). }
  destruct r as [|c2 r2]; cbn [nonempty]; [discriminate|]. cbv zeta.
  assert (Htuples :
    match get_option_tuples ap (String "-" (String c2 r2)) with
    | [] =>
        if negative_number_like (String "-" (String c2 r2)) then Positional
        else if mem_char " " (String "-" (String c2 r2)) then Positional
        else Unknown
    | [(a1, o1, e1)] => Flag a1 o1 e1
    | _ :: _ :: _ => Ambiguous
    end = Flag a o e -> a ∈ ap /\ spells a (String "-" (String c2 r2)) = true).
  { destruct (get_option_tuples ap (String "-" (String c2 r2)))
      as [|[[a1 o1] e1] [|? ?]] eqn:Et.
    - destruct (negative_number_like _); [discriminate|].
      destruct (mem_char _ _); discriminate.
    - intros H. injection H as <- <- <-. now apply tuples_spell in Et.
    - discriminate. }
  destruct (split_at "=" (String "-" (String c2 r2))) as [[o1 e1]|] eqn:Es;
    cbn [mbind option_bind]; [|exact Htuples].
  destruct (find_option ap o1) as [a1|] eqn:Ef1;
    cbn [mbind option_bind]; [|exact Htuples].
  intros H. injection H as <- <- <-.
  assert (Hb : before_equals (String "-" (String c2 r2)) = o1)
    by (unfold before_equals; now rewrite Es).
  apply split_at_spec in Es. apply find_option_elem in Ef1.
  option_cases Ef1; (split; [in_ap|]).
  all: first
    [ eapply spells_short; [reflexivity|reflexivity|rewrite Es; reflexivity]
    | eapply spells_long; [reflexivity|reflexivity|rewrite Hb..];
      [cbn; lia|reflexivity] ].
Qed.

(** *** Every way of writing an option is read as that option *)




(** Peels one character off a prefix of a known string. *)
Ltac peel H :=
  match type of H with
  | String.prefix ?s _ = true =>
      is_var s; destruct s as [|?c ?s'];
      [|first
          [ rewrite prefix_cons in H;
            match type of H with
            | (if Ascii.eqb ?c ?x then _ else _) = true =>
                destruct (Ascii.eqb_spec c x); [subst|discriminate H]
            end
          | cbn in H; discriminate H ]]
  end.



(** *** Strings that are refused *)


(** *** From strings to tokens *)


Lemma elem_of_option_part s argv : s ∈ option_part argv -> s ∈ argv.
Proof.
  induction argv as [|x rest IH]; [trivial|]. cbn [option_part].
  destruct (String.eqb x "--"); [intros H; now apply elem_of_nil in H|].
  intros [->|H]%elem_of_cons; [apply list_elem_of_here|].
  apply list_elem_of_further. now apply IH.
Qed.

(** Where the tokens of the pattern come from, and what becomes of each
    string. *)
Lemma classify_tokens argv toks :
  classify ap argv = Some toks ->
  (forall a o e, TO (Some (a, o, e)) ∈ toks ->
     exists s, s ∈ option_part argv /\ parse_optional ap s = Flag a o e)
  /\ (forall s, s ∈ option_part argv -> parse_optional ap s = Unknown ->
        TO None ∈ toks)
  /\ ("--" ∈ argv -> TDash ∈ toks).
Proof.
  revert toks. induction argv as [|s rest IH]; intros toks Hc.
  { injection Hc as <-. split; [|split].
    - intros a o e H. now apply elem_of_nil in H.
    - intros s H. now apply elem_of_nil in H.
    - intros H. now apply elem_of_nil in H. }
  cbn [classify option_part] in *.
  destruct (String.eqb_spec s "--") as [->|Hs].
  { injection Hc as <-. split; [|split].
    - intros a o e [H|H]%elem_of_cons; [discriminate|].
      apply list_elem_of_fmap in H as (? & H & _). discriminate.
    - intros s H. now apply elem_of_nil in H.
    - intros _. apply list_elem_of_here. }
  assert (Hrest : forall tok toks',
            classify ap rest = Some toks' -> toks = tok :: toks' ->
            (forall a o e, tok = TO (Some (a, o, e)) ->
                           parse_optional ap s = Flag a o e) ->
            (parse_optional ap s = Unknown -> tok = TO None) ->
            (forall a o e, TO (Some (a, o, e)) ∈ toks ->
               exists s0, s0 ∈ s :: option_part rest
                          /\ parse_optional ap s0 = Flag a o e)
            /\ (forall s0, s0 ∈ s :: option_part rest ->
                  parse_optional ap s0 = Unknown -> TO None ∈ toks)
            /\ ("--" ∈ s :: rest -> TDash ∈ toks)).
  { intros tok toks' Hc' -> Hflag Hunk.
    destruct (IH _ Hc') as (I1 & I2 & I3). split; [|split].
    - intros a o e [H|H]%elem_of_cons.
      + exists s. split; [apply list_elem_of_here|]. now apply Hflag.
      + destruct (I1 _ _ _ H) as (s0 & Hs0 & Hp). exists s0.
        split; [now apply list_elem_of_further|assumption].
    - intros s0 [->|H]%elem_of_cons Hp.
      + rewrite (Hunk Hp). apply list_elem_of_here.
      + apply list_elem_of_further. now apply (I2 s0).
    - intros [H|H]%elem_of_cons; [congruence|].
      apply list_elem_of_further. now apply I3. }
  destruct (parse_optional ap s) as [|a1 o1 e1| |] eqn:Ep;
    [| | |discriminate Hc];
    (destruct (classify ap rest) as [toks'|]; [|discriminate Hc];
     cbn in Hc; injection Hc as <-;
     eapply Hrest; [reflexivity|reflexivity|..]);
    try discriminate; try (intros ? ? ? H; discriminate H).
  - intros a o e H. now injection H as <- <- <-.
  - reflexivity.
Qed.

Lemma classify_ambiguous argv :
  classify ap argv = None ->
  exists s, s ∈ option_part argv /\ parse_optional ap s = Ambiguous.
Proof.
  induction argv as [|s rest IH]; [discriminate|].
  cbn [classify option_part].
  destruct (String.eqb s "--"); [discriminate|].
  destruct (parse_optional ap s) eqn:Ep;
    try (destruct (classify ap rest); [discriminate|];
         intros _; destruct (IH eq_refl) as (s0 & Hs0 & Hp);
         exists s0; split; [now apply list_elem_of_further|assumption]).
  intros _. exists s. split; [apply list_elem_of_here|assumption].
Qed.

(** *** The main loop *)


(** How a step of the loop that ends well went on. *)
Lemma consume_parsed toks st args :
  consume ap toks st = Parsed args ->
  (toks = [] /\ finish ap st = Parsed args)
  \/ (exists tok rest,
        toks = tok :: rest
        /\ (forall a o e, tok <> TO (Some (a, o, e)))
        /\ consume ap rest (add_extra st) = Parsed args)
  \/ (exists a o v rest,
        act a = store /\ toks = TO (Some (a, o, Some v)) :: rest
        /\ consume ap rest (take_action a [v] st) = Parsed args)
  \/ (exists a o v rest,
        act a = store /\ toks = TO (Some (a, o, None)) :: TA v :: rest
        /\ consume ap rest (take_action a [v] st) = Parsed args).
Proof.
  destruct toks as [|[s| |[[[a o] e]|]] rest]; cbn [consume]; intros H.
  - now left.
  - right; left. exists (TA s), rest. split; [reflexivity|].
    split; [discriminate|assumption].
  - right; left. exists TDash, rest. split; [reflexivity|].
    split; [discriminate|assumption].
  - destruct (act a) eqn:Ea.
    + destruct e as [v|].
      * right; right; left. exists a, o, v, rest. auto.
      * destruct rest as [|[v| |?] rest']; try discriminate H.
        right; right; right. exists a, o, v, rest'. auto.
    + destruct e; [destruct (is_short o)|]; discriminate H.
  - right; left. exists (TO None), rest. split; [reflexivity|].
    split; [discriminate|assumption].
Qed.

Lemma finish_parsed_inv st args :
  finish ap st = Parsed args ->
  extras st = false /\ "dataset" ∈ seen_actions st /\ args = namespace st.
Proof.
  unfold finish, ap.
  cbn [forallb required dest help_option dataset_option plot_option
       model_option negb orb andb].
  rewrite andb_true_r. destruct (bool_decide_reflect ("dataset" ∈ seen_actions st));
    [|discriminate].
  destruct (extras st); [discriminate|]. intros H. now injection H as <-.
Qed.

(** Once a string was left over the loop cannot end well. *)
Lemma consume_extras n toks st args :
  (length toks <= n)%nat -> extras st = true ->
  consume ap toks st <> Parsed args.
Proof.
  revert toks st. induction n as [|n IH]; intros toks st Hlen Hx Hc;
    apply consume_parsed in Hc
      as [[-> Hf]|[(tok & rest & -> & _ & Hc)
                  |[(a & o & v & rest & _ & -> & Hc)
                   |(a & o & v & rest & _ & -> & Hc)]]];
    cbn [length] in Hlen; try lia.
  all: try (apply finish_parsed_inv in Hf as [Hf _]; congruence).
  all: refine (IH rest _ _ _ Hc); [lia|first [reflexivity|assumption]].
Qed.





(** *** From tokens back to strings *)






(** *** What a successful parse returns *)

Lemma initial_namespace_ap :
  initial_namespace ap =
  <["model" := PyStr "face_mask_detector.model"]>
    (<["plot" := PyStr "plots/plot.png"]> (<["dataset" := PyNone]> ∅)).
Proof. reflexivity. Qed.





(** A string that does not start with a dash is an argument, not an
    option. *)
Lemma plain_argument d :
  String.prefix "-" d = false ->
  String.eqb d "--" = false /\ parse_optional ap d = Positional.
Proof.
  destruct d as [|c r]; [now split|]. rewrite prefix_cons, prefix_nil_l.
  intros H. destruct (Ascii.eqb_spec "-" c) as [|Hne]; [discriminate|].
  split.
  - apply String.eqb_neq. congruence.
  - cbn [parse_optional]. destruct (Ascii.eqb_spec c "-"); [congruence|].
    reflexivity.
Qed.

(** A single string other than [--] is stored as it is. *)
Lemma get_values_plain v : String.eqb v "--" = false -> get_values [v] = PyStr v.
Proof. intros H. unfold get_values. cbn [remove_first]. now rewrite H. Qed.

(** Only the dataset given: the other two attributes keep their defaults. *)
Lemma dataset_only d :
  String.prefix "-" d = false ->
  args_of ["--dataset"; d] =
  Parsed (<["dataset" := PyStr d]> (initial_namespace ap)).
Proof.
  intros Hd. destruct (plain_argument d Hd) as [He Hp].
  unfold args_of, parse_args. cbn [classify].
  change (String.eqb "--dataset" "--") with false. cbv iota.
  change (parse_optional ap "--dataset")
    with (Flag dataset_option "--dataset" None). cbv iota.
  rewrite He, Hp. cbn [classify fmap option_fmap option_map].
  cbn [consume act dataset_option]. unfold finish, ap.
  cbn [forallb required dest help_option dataset_option plot_option
       model_option negb orb andb take_action seen_actions extras namespace].
  rewrite bool_decide_eq_true_2 by set_solver.
  now rewrite (get_values_plain _ He).
Qed.







End CliFacts.
(** * Further properties

    ** Steps and learning rate over a run (lines 116 and 122-128) *)

Module TrainingExtra.
Import Trainer Optimizer TrainerFacts OptimizerFacts.

(** A split smaller than one batch gives zero steps: [steps_per_epoch]
    is 0 exactly when the training set has fewer than 32 samples, and
    [validation_steps] is 0 exactly when the test set has fewer than 32;
    a larger training set never gives fewer steps. *)
Theorem no_steps_below_one_batch {A B} (X_train X_train' : list A)
  (X_test : list B) :
  exists args args',
    fit_call X_train X_test = Ok args
    /\ fit_call X_train' X_test = Ok args'
    /\ (steps_per_epoch args = 0 <-> (length X_train < 32)%nat)
    /\ (validation_steps args = 0 <-> (length X_test < 32)%nat)
    /\ ((length X_train <= length X_train')%nat ->
        steps_per_epoch args <= steps_per_epoch args').
Proof.
  unfold fit_call. rewrite !floordiv_BS. cbn [mbind result_bind].
  eexists _, _. split; [reflexivity|]. split; [reflexivity|].
  cbn [steps_per_epoch validation_steps]. unfold len.
  pose proof (Z.div_mod (Z.of_nat (length X_train)) 32 ltac:(lia)).
  pose proof (Z.mod_pos_bound (Z.of_nat (length X_train)) 32 ltac:(lia)).
  pose proof (Z.div_mod (Z.of_nat (length X_test)) 32 ltac:(lia)).
  pose proof (Z.mod_pos_bound (Z.of_nat (length X_test)) 32 ltac:(lia)).
  split; [lia|]. split; [lia|].
  intros Hle. apply Z.div_le_mono; lia.
Qed.

(** The rate at the end of a run.  With [decay = learning_rate / EPOCHS]
    and one update per step, after the [EPOCHS * steps_per_epoch] updates
    of the whole run the rate is [1 / (1000 + steps_per_epoch)]: it
    depends on the size of the training set, not on the number of
    epochs, it never reaches zero, and it is still above half the
    initial rate unless an epoch has 1000 steps or more. *)
Theorem rate_at_end_of_run {A B} (X_train : list A) (X_test : list B) :
  exists args,
    fit_call X_train X_test = Ok args
    /\ let final :=
         decayed_lr opt (Z.to_nat (epochs args * steps_per_epoch args)) in
       (final == 1 / (1000 + inject_Z (steps_per_epoch args)))%Q
       /\ (0 < final)%Q
       /\ (final <= learning_rate)%Q
       /\ ((learning_rate / 2 < final)%Q <-> steps_per_epoch args < 1000).
Proof.
  unfold fit_call. rewrite !floordiv_BS. cbn [mbind result_bind].
  eexists. split; [reflexivity|].
  cbn [steps_per_epoch epochs]. cbn zeta.
  set (s := len X_train / 32).
  assert (Hs : 0 <= s) by (apply Z.div_pos; unfold len; lia).
  assert (Hq : (0 <= inject_Z s)%Q).
  { change 0%Q with (inject_Z 0). now rewrite <- Zle_Qle. }
  assert (E : (decayed_lr opt (Z.to_nat (EPOCHS * s))
               == 1 / (1000 + inject_Z s))%Q).
  { rewrite decayed_lr_closed, Z2Nat.id by (unfold EPOCHS; lia).
    unfold EPOCHS. rewrite inject_Z_mult. field. lra. }
  rewrite E. unfold learning_rate.
  assert (Hpos : (0 < 1 / (1000 + inject_Z s))%Q)
    by (apply Qlt_shift_div_l; lra).
  split; [reflexivity|]. split; [exact Hpos|]. split.
  - apply Qle_shift_div_r; [lra|].
    assert ((1 # 1000) * (1000 + inject_Z s) == 1 + (1 # 1000) * inject_Z s)%Q
      as -> by ring.
    lra.
  - assert (Hk : (inject_Z s < 1000)%Q <-> s < 1000).
    { change 1000%Q with (inject_Z 1000). now rewrite <- Zlt_Qlt. }
    rewrite <- Hk.
    set (d := (1000 + inject_Z s)%Q) in *.
    assert (Hd : (0 < d)%Q) by (unfold d; lra).
    rewrite <- (Qmult_lt_r _ _ d Hd).
    assert ((1 / d) * d == 1)%Q as -> by (field; lra).
    unfold d.
    assert ((1 # 1000) / 2 == 1 # 2000)%Q as -> by reflexivity.
    split; intros; lra.
Qed.

End TrainingExtra.

(** ** The loading loop, labels and the enumeration (lines 48-68) *)

Module LoaderExtra.
Import Loader LoaderFacts Invariants.

Section Loop.

Context {Image : Type}.
Variable load_image : string -> result Image.

(** The accumulators only grow at the end. *)
Lemma load_loop_acc ps data labels :
  load_loop load_image ps data labels =
  match load_loop load_image ps [] [] with
  | Ok (d, l) => Ok (data ++ d, labels ++ l)
  | Raise e => Raise e
  end.
Proof.
  revert data labels. induction ps as [|p ps IH]; intros data labels.
  - cbn. now rewrite !app_nil_r.
  - cbn [load_loop]. destruct (label_of p) as [l|e]; [|reflexivity].
    cbn [mbind result_bind]. destruct (load_image p) as [x|e]; [|reflexivity].
    cbn [mbind result_bind]. rewrite (IH (data ++ [x])), (IH ([] ++ [x])).
    destruct (load_loop load_image ps [] []) as [[d l']|e]; [|reflexivity].
    now rewrite <- !app_assoc.
Qed.

Lemma load_loop_cons p ps :
  load_loop load_image (p :: ps) [] [] =
  match label_of p, load_image p, load_loop load_image ps [] [] with
  | Ok l, Ok x, Ok (d, ls) => Ok (x :: d, l :: ls)
  | Ok _, Ok _, Raise e => Raise e
  | Ok _, Raise e, _ => Raise e
  | Raise e, _, _ => Raise e
  end.
Proof.
  cbn [load_loop]. destruct (label_of p) as [l|e]; [|reflexivity].
  cbn [mbind result_bind]. destruct (load_image p) as [x|e]; [|reflexivity].
  cbn [mbind result_bind]. rewrite load_loop_acc.
  destruct (load_loop load_image ps [] []) as [[d ls]|e]; reflexivity.
Qed.

(** The loop over any list of paths. *)
Lemma load_loop_Forall2 (ps : list string) (data : list Image)
  (labels : list string) :
  load_loop load_image ps [] [] = Ok (data, labels) <->
  Forall2 (fun p l => label_of p = Ok l) ps labels
  /\ Forall2 (fun p x => load_image p = Ok x) ps data.
Proof.
  revert data labels. induction ps as [|p ps IH]; intros data labels.
  - cbn [load_loop]. split.
    + intros H. injection H as <- <-. split; constructor.
    + intros [H1 H2]. apply Forall2_nil_inv_l in H1, H2. now subst.
  - rewrite load_loop_cons. split.
    + destruct (label_of p) as [l|e] eqn:El; [|discriminate].
      destruct (load_image p) as [x|e] eqn:Ex; [|discriminate].
      destruct (load_loop load_image ps [] []) as [[d ls]|e] eqn:E;
        [|discriminate].
      intros H. injection H as <- <-.
      destruct (proj1 (IH d ls) eq_refl) as [H1 H2].
      split; constructor; assumption.
    + intros [H1 H2].
      apply Forall2_cons_inv_l in H1 as (l & ls & Hl & Hls & ->).
      apply Forall2_cons_inv_l in H2 as (x & d & Hx & Hd & ->).
      rewrite Hl, Hx, (proj2 (IH d ls) (conj Hls Hd)). reflexivity.
Qed.

(** The loading stage succeeds exactly when every enumerated path yields
    a label and an image, and then [data] and [labels] are parallel to
    the enumeration: entry [i] of each comes from path [i]. *)
Theorem data_and_labels_parallel (basePath : string) (root : option node)
  (data : list Image) (labels : list string) :
  load_dataset load_image basePath root = Ok (data, labels) <->
  Forall2 (fun p l => label_of p = Ok l) (list_images basePath root) labels
  /\ Forall2 (fun p x => load_image p = Ok x) (list_images basePath root) data.
Proof. apply load_loop_Forall2. Qed.

(** The loop stops at the first path that fails, with that path's
    error; the label is taken before the file is opened, so a path
    without a directory part raises before any attempt to load it. *)
Theorem first_failure_raises (good rest : list string) (bad : string)
  (e : py_error) :
  Forall (fun p => (exists l, label_of p = Ok l)
                   /\ exists x, load_image p = Ok x) good ->
  label_of bad = Raise e
  \/ ((exists l, label_of bad = Ok l) /\ load_image bad = Raise e) ->
  load_loop load_image (good ++ bad :: rest) [] [] = Raise e.
Proof.
  intros Hgood Hbad. induction Hgood as [|p good [[l Hl] [x Hx]] _ IH].
  - cbn [app]. rewrite load_loop_cons.
    destruct Hbad as [->|[[l ->] ->]]; reflexivity.
  - cbn [app]. rewrite load_loop_cons, Hl, Hx, IH. reflexivity.
Qed.

End Loop.

(** The theorem at the example directory with images, left to right. *)
Lemma data_and_labels_parallel_witness :
  Forall2 (fun p l => label_of p = Ok l)
    (list_images "dataset" (Some dataset_with_images))
    ["dataset"; "with_mask"; "without_mask"]
  /\ Forall2 (fun _ x => Ok tt = Ok x)
       (list_images "dataset" (Some dataset_with_images)) [tt; tt; tt].
Proof.
  exact (proj1 (data_and_labels_parallel (fun _ => Ok tt) "dataset"
                  (Some dataset_with_images) [tt; tt; tt]
                  ["dataset"; "with_mask"; "without_mask"]) eq_refl).
Defined.

(** The theorem at a listing whose second file cannot be decoded. *)
Lemma first_failure_raises_witness :
  load_loop (fun p => if String.eqb p "d/m/b.png" then Raise LoadError
                      else Ok tt)
    (["d/m/a.png"] ++ "d/m/b.png" :: ["d/m/c.png"]) [] []
  = Raise LoadError.
Proof.
  apply (first_failure_raises _ ["d/m/a.png"] ["d/m/c.png"] "d/m/b.png").
  - repeat constructor; eexists; reflexivity.
  - right. split; [eexists|]; reflexivity.
Defined.

(** *** Labels and path components *)

Lemma split_length_sep c s :
  Cli.mem_char c s = true -> (2 <= length (split c s))%nat.
Proof.
  induction s as [|x r IH]; [discriminate|]. cbn [Cli.mem_char split].
  destruct (Ascii.eqb x c); cbn [orb].
  - intros _. pose proof (split_not_nil c r).
    destruct (split c r); [congruence|cbn; lia].
  - intros H. specialize (IH H).
    destruct (split c r); cbn in *; lia.
Qed.

Lemma split_app_sep c d p :
  split c (d +:+ String c p) = split c d ++ split c p.
Proof.
  induction d as [|x r IH].
  - change (EmptyString +:+ String c p) with (String c p).
    cbn [split]. now rewrite Ascii.eqb_refl.
  - change (String x r +:+ String c p) with (String x (r +:+ String c p)).
    cbn [split]. destruct (Ascii.eqb x c); [now rewrite IH|].
    rewrite IH. pose proof (split_not_nil c r).
    destruct (split c r); [congruence|reflexivity].
Qed.

Lemma index_from_end_app {A} (l1 l2 : list A) :
  (2 <= length l2)%nat ->
  index_from_end (l1 ++ l2) 2 = index_from_end l2 2.
Proof.
  intros H. unfold index_from_end. rewrite length_app.
  assert (E1 : (2 <=? length l1 + length l2)%nat = true)
    by (apply Nat.leb_le; lia).
  assert (E2 : (2 <=? length l2)%nat = true) by (apply Nat.leb_le; lia).
  rewrite E1, E2, lookup_app_r by lia.
  replace (length l1 + length l2 - 2 - length l1)%nat
    with (length l2 - 2)%nat by lia.
  reflexivity.
Qed.

(** A path gets a label exactly when it has a directory part: without a
    separator the index [-2] is out of range. *)
Theorem label_needs_directory (p : string) :
  (Cli.mem_char sep p = false -> label_of p = Raise IndexError)
  /\ (Cli.mem_char sep p = true -> exists l, label_of p = Ok l).
Proof.
  unfold label_of. split; intros H.
  - rewrite (split_no_sep _ _ H). reflexivity.
  - apply split_length_sep in H. unfold index_from_end.
    assert (E : (2 <=? length (split sep p))%nat = true)
      by (apply Nat.leb_le; lia).
    rewrite E.
    destruct (lookup_lt_is_Some_2 (split sep p) (length (split sep p) - 2)%nat
                ltac:(lia)) as [l ->].
    now exists l.
Qed.

(** The theorem at a bare file name and at a path with a directory. *)
Lemma label_needs_directory_witness :
  label_of "a.png" = Raise IndexError
  /\ exists l, label_of "with_mask/a.png" = Ok l.
Proof.
  split.
  - exact (proj1 (label_needs_directory "a.png") eq_refl).
  - exact (proj2 (label_needs_directory "with_mask/a.png") eq_refl).
Defined.

(** The label does not depend on where the dataset lies: putting any
    directory in front of a path that has a label leaves the label as it
    is. *)
Theorem label_ignores_location (front p : string) :
  Cli.mem_char sep p = true ->
  label_of (front +:+ String sep p) = label_of p.
Proof.
  intros H. unfold label_of. rewrite split_app_sep.
  apply index_from_end_app. now apply split_length_sep.
Qed.

(** The theorem at an absolute and a relative dataset path. *)
Lemma label_ignores_location_witness :
  label_of "/home/user/dataset/with_mask/a.png"
  = label_of "dataset/with_mask/a.png".
Proof.
  exact (label_ignores_location "/home/user" "dataset/with_mask/a.png"
           eq_refl).
Defined.

(** An image in a directory below a class directory is labelled with
    the inner directory, not with the class directory. *)
Theorem label_is_innermost_directory (basePath cls sub f : string) :
  clean basePath = true -> valid_name cls = true ->
  valid_name sub = true -> valid_name f = true ->
  label_of (path_join (path_join (path_join basePath cls) sub) f) = Ok sub
  /\ label_of (path_join (path_join basePath cls) f) = Ok cls.
Proof.
  intros Hb Hc Hs Hf.
  pose proof (clean_join _ _ Hb Hc) as Hbc.
  pose proof (clean_join _ _ Hbc Hs) as Hbcs.
  rewrite !label_of_join, !basename_join by assumption. now split.
Qed.

(** The theorem at [dataset/with_mask/old/a.png]. *)
Lemma label_is_innermost_directory_witness :
  label_of "dataset/with_mask/old/a.png" = Ok "old"
  /\ label_of "dataset/with_mask/a.png" = Ok "with_mask".
Proof.
  exact (label_is_innermost_directory "dataset" "with_mask" "old" "a.png"
           eq_refl eq_refl eq_refl eq_refl).
Defined.

(** *** The enumeration *)

Lemma count_images_cons name t' cs :
  count_images (Directory ((name, t') :: cs)) =
  (match t' with
   | File => if is_image name then 1 else 0
   | Directory _ => count_images t'
   end + count_images (Directory cs))%nat.
Proof. reflexivity. Qed.

Lemma filenames_cons name t' cs :
  filenames ((name, t') :: cs) =
  match t' with File => [name] | Directory _ => [] end ++ filenames cs.
Proof. unfold filenames. cbn [omap list_omap fst snd]. now destruct t'. Qed.

Lemma length_images_of_walk t :
  forall basePath,
    length (walk basePath t ≫=
              (fun entry : string * list string =>
                 let '(rootDir, files) := entry in
                 filename ← files;
                 if is_image filename then [path_join rootDir filename]
                 else []))
    = count_images t.
Proof.
  induction t as [|cs IH] using node_nested_ind; intros basePath;
    [reflexivity|].
  rewrite walk_directory, bind_cons, length_app.
  induction cs as [|[name t'] cs IHcs]; [reflexivity|].
  apply Forall_cons in IH as [Ht' Hcs]. specialize (IHcs Hcs).
  cbn [fst snd] in Ht'.
  rewrite count_images_cons, filenames_cons, !bind_cons, !bind_app,
    !length_app.
  cbn [fst snd]. rewrite Ht'.
  destruct t' as [|cs'].
  - rewrite bind_singleton. change (count_images File) with 0%nat.
    destruct (is_image name); cbn [length]; lia.
  - change ([] ≫= _) with (@nil string). cbn [length]. lia.
Qed.

(** Each recognizable image file of the tree is enumerated once and
    nothing else is: the listing is as long as the tree has image files,
    and every listed path ends in an image file name. *)
Theorem enumeration_is_the_image_files (basePath : string) (t : node) :
  length (list_images basePath (Some t)) = count_images t
  /\ (clean basePath = true -> well_named t = true ->
      forall p, p ∈ list_images basePath (Some t) ->
                is_image (basename p) = true).
Proof.
  split; [apply length_images_of_walk|].
  intros Hb Ht p Hp.
  apply elem_of_list_images in Hp as (r & fs & f & Hw & Hf & Hi & ->).
  destruct (walk_directories t basePath r fs Ht Hb Hw) as (Hr & Hfs & _).
  now rewrite basename_join by auto.
Qed.

(** The theorem at the example directory. *)
Lemma enumeration_is_the_image_files_witness :
  length (list_images "dataset" (Some dataset_with_images)) = 3%nat
  /\ is_image (basename "dataset/with_mask/b.jpg") = true.
Proof.
  split.
  - exact (proj1 (enumeration_is_the_image_files "dataset"
                    dataset_with_images)).
  - apply (proj2 (enumeration_is_the_image_files "dataset"
                    dataset_with_images) eq_refl eq_refl).
    apply list_elem_of_In. vm_compute. auto.
Defined.

(** *** Which names count as images *)

Lemma from_last_dot_none f :
  Cli.mem_char "." f = false -> from_last_dot f = None.
Proof.
  induction f as [|x r IH]; [reflexivity|]. cbn [Cli.mem_char from_last_dot].
  intros H. apply orb_false_iff in H as [Hx Hr]. now rewrite (IH Hr), Hx.
Qed.

Lemma from_last_dot_app stem ext :
  Cli.mem_char "." ext = false ->
  from_last_dot (stem +:+ String "." ext) = Some (String "." ext).
Proof.
  intros H. induction stem as [|x r IH].
  - change (EmptyString +:+ String "." ext) with (String "." ext).
    cbn [from_last_dot]. now rewrite (from_last_dot_none _ H).
  - change (String x r +:+ String "." ext)
      with (String x (r +:+ String "." ext)).
    cbn [from_last_dot]. now rewrite IH.
Qed.

Lemma lower_char_dot c : Ascii.eqb (lower_char c) "." = Ascii.eqb c ".".
Proof. destruct c as [[] [] [] [] [] [] [] []]; reflexivity. Qed.

Lemma lower_no_dot s : Cli.mem_char "." (lower s) = Cli.mem_char "." s.
Proof.
  induction s as [|x r IH]; [reflexivity|].
  cbn [lower Cli.mem_char]. now rewrite lower_char_dot, IH.
Qed.

Lemma endswith_no_dot x y :
  Cli.mem_char "." x = false -> endswith x (String "." y) = false.
Proof.
  induction x as [|c r IH]; [reflexivity|]. cbn [Cli.mem_char endswith].
  intros H. apply orb_false_iff in H as [Hc Hr]. rewrite (IH Hr), orb_false_r.
  apply String.eqb_neq. intros E. injection E as -> _. discriminate Hc.
Qed.

Lemma endswith_dot x y :
  Cli.mem_char "." x = false ->
  endswith (String "." x) (String "." y) = String.eqb x y.
Proof.
  intros H. cbn [endswith]. rewrite (endswith_no_dot _ _ H), orb_false_r.
  reflexivity.
Qed.

Lemma last_char_short f :
  last_char f = EmptyString \/ exists c, last_char f = String c EmptyString.
Proof.
  induction f as [|x r IH]; [now left|]. cbn [last_char].
  destruct r; [right; now exists x|exact IH].
Qed.

(** A name is taken for an image exactly when what follows its last dot
    is, regardless of case, one of jpg, jpeg, png, bmp, tif, tiff; a name
    without a dot never is. *)
Theorem image_by_extension (stem ext f : string) :
  (Cli.mem_char "." ext = false ->
   is_image (stem +:+ String "." ext) =
   existsb (String.eqb (lower ext))
     ["jpg"; "jpeg"; "png"; "bmp"; "tif"; "tiff"])
  /\ (Cli.mem_char "." f = false -> is_image f = false).
Proof.
  split; intros H; unfold is_image.
  - rewrite (from_last_dot_app _ _ H). cbn [default lower].
    change (lower_char ".") with "."%char.
    assert (Hl : Cli.mem_char "." (lower ext) = false)
      by now rewrite lower_no_dot.
    cbn [existsb image_types]. now rewrite !(endswith_dot _ _ Hl).
  - rewrite (from_last_dot_none _ H). cbn [default].
    destruct (last_char_short f) as [->|[c ->]]; [reflexivity|].
    cbn [lower existsb image_types endswith String.eqb].
    destruct (Ascii.eqb (lower_char c) "."); reflexivity.
Qed.

(** The theorem at an upper-case extension and at a name without one. *)
Lemma image_by_extension_witness :
  is_image "IMG_0001.JPG" = true /\ is_image "README" = false.
Proof.
  split.
  - exact (proj1 (image_by_extension "IMG_0001" "JPG" "README") eq_refl).
  - exact (proj2 (image_by_extension "IMG_0001" "JPG" "README") eq_refl).
Defined.

End LoaderExtra.

(** ** Class order, encoding and decoding (lines 71-73 and 136-140) *)

Module EncoderExtra.
Import Encoder EncoderFacts Invariants.

(** Two strictly sorted lists with the same members are the same list. *)
Lemma sorted_same_members a b :
  StronglySorted label_lt a -> StronglySorted label_lt b ->
  (forall x, x ∈ a <-> x ∈ b) -> a = b.
Proof.
  intros Ha. revert b. induction Ha as [|x a Ha IH Hx]; intros b Hb Hab.
  - destruct b as [|y b]; [reflexivity|].
    exfalso. apply (not_elem_of_nil y), Hab, elem_of_cons. now left.
  - destruct Hb as [|y b Hb Hy].
    { exfalso. apply (not_elem_of_nil x), Hab, elem_of_cons. now left. }
    rewrite Forall_forall in Hx, Hy.
    assert (x = y) as <-.
    { assert (Hxb : x ∈ y :: b) by (apply Hab, elem_of_cons; now left).
      assert (Hya : y ∈ x :: a) by (apply Hab, elem_of_cons; now left).
      apply elem_of_cons in Hxb as [?|Hxb]; [assumption|].
      apply elem_of_cons in Hya as [?|Hya]; [congruence|].
      exfalso. apply (label_lt_irrefl x).
      apply (label_lt_trans x y x); [now apply Hx|now apply Hy]. }
    f_equal. apply IH; [assumption|]. intros z. split; intros Hz.
    + assert (H : z ∈ x :: b) by (apply Hab, elem_of_cons; now right).
      apply elem_of_cons in H as [->|H]; [|assumption].
      exfalso. exact (label_lt_irrefl x (Hx _ Hz)).
    + assert (H : z ∈ x :: a) by (apply Hab, elem_of_cons; now right).
      apply elem_of_cons in H as [->|H]; [|assumption].
      exfalso. exact (label_lt_irrefl x (Hy _ Hz)).
Qed.

Lemma fit_ok l lb :
  fit l = Ok lb ->
  lb = {| classes_ := unique l; y_type_ := type_of_target l |}.
Proof. destruct l; [discriminate|]. intros H. now injection H as <-. Qed.

(** The fitted encoder depends on which labels occur, not on the order
    in which the images were enumerated nor on how many images a class
    has: the class list, and with it the column of every class, is the
    same. *)
Theorem classes_ignore_order (l1 l2 : list string) :
  (forall x, x ∈ l1 <-> x ∈ l2) ->
  unique l1 = unique l2
  /\ (forall lb1 lb2, fit l1 = Ok lb1 -> fit l2 = Ok lb2 -> lb1 = lb2)
  /\ (forall v, searchsorted (unique l1) v = searchsorted (unique l2) v).
Proof.
  intros H.
  assert (E : unique l1 = unique l2).
  { apply sorted_same_members; [apply unique_sorted..|].
    intros x. now rewrite !elem_of_unique. }
  split; [exact E|]. split; [|intros v; now rewrite E].
  intros lb1 lb2 H1 H2. rewrite (fit_ok _ _ H1), (fit_ok _ _ H2).
  unfold type_of_target. now rewrite E.
Qed.

(** The theorem at two listings of the same two classes. *)
Lemma classes_ignore_order_witness :
  unique ["without_mask"; "with_mask"; "without_mask"]
  = unique ["with_mask"; "without_mask"].
Proof.
  apply (classes_ignore_order ["without_mask"; "with_mask"; "without_mask"]
           ["with_mask"; "without_mask"]).
  intros x. rewrite !elem_of_cons, !elem_of_nil. tauto.
Defined.

Lemma bind_ext_in {A B} (f g : A -> list B) (l : list A) :
  (forall x, x ∈ l -> f x = g x) -> l ≫= f = l ≫= g.
Proof.
  induction l as [|x r IH]; intros H; [reflexivity|].
  rewrite !bind_cons, IH, (H x) by
    (try (apply elem_of_cons; now left);
     intros; apply H, elem_of_cons; now right).
  reflexivity.
Qed.

(** With two classes the columns follow the alphabet: the class whose
    name sorts first is column 0, so its images are encoded [1, 0] and
    those of the other class [0, 1]. *)
Theorem two_class_columns (labels : list string) :
  n_classes labels = 2%nat ->
  exists c0 c1 Y,
    unique labels = [c0; c1] /\ label_lt c0 c1
    /\ encode labels = Ok ({| classes_ := [c0; c1]; y_type_ := binary |}, Y)
    /\ shape Y = [length labels; 2%nat]
    /\ data Y = labels ≫=
                (fun v => if String.eqb v c0 then [1; 0] else [0; 1]).
Proof.
  intros Hk. pose proof (encode_two labels Hk) as He.
  pose proof (unique_sorted labels) as Hs.
  pose proof (fun v => class_bit_index labels v Hk) as Hbit.
  pose proof (fun v => class_index labels v) as Hidx.
  pose proof (fun v => elem_of_unique v labels) as Hmem.
  unfold n_classes in Hk.
  destruct (unique labels) as [|c0 [|c1 [|? ?]]] eqn:Hu; try discriminate Hk.
  apply StronglySorted_inv in Hs as [_ Hlt].
  apply Forall_cons in Hlt as [Hlt _].
  eexists c0, c1, _. split; [reflexivity|]. split; [exact Hlt|].
  split; [exact He|]. split; [reflexivity|]. cbn [data].
  apply bind_ext_in. intros v Hv.
  destruct (Hbit v Hv) as [-> Hb]. rewrite Nat2Z.id.
  specialize (Hidx v Hv).
  destruct (String.eqb_spec v c0) as [->|Hne].
  - cbn [searchsorted]. replace (String.ltb c0 c0) with false; [reflexivity|].
    symmetry. apply not_true_is_false. exact (label_lt_irrefl c0).
  - destruct (searchsorted [c0; c1] v) as [|[|i]]; [|reflexivity|lia].
    cbn in Hidx. congruence.
Qed.

(** The theorem at the two class names of the project. *)
Lemma two_class_columns_witness :
  exists c0 c1 Y,
    unique ["without_mask"; "with_mask"] = [c0; c1] /\ label_lt c0 c1
    /\ encode ["without_mask"; "with_mask"]
       = Ok ({| classes_ := [c0; c1]; y_type_ := binary |}, Y)
    /\ shape Y = [2%nat; 2%nat]
    /\ data Y = ["without_mask"; "with_mask"] ≫=
                (fun v => if String.eqb v c0 then [1; 0] else [0; 1]).
Proof.
  exact (two_class_columns ["without_mask"; "with_mask"] eq_refl).
Defined.

(** *** The encoder on any label array *)

Lemma length_bind_rows {A B} (f : A -> list B) (w : nat) (l : list A) :
  (forall x, length (f x) = w) -> length (l ≫= f) = (length l * w)%nat.
Proof.
  intros Hw. induction l as [|x r IH]; [reflexivity|].
  rewrite bind_cons, length_app, Hw, IH. cbn [length]. lia.
Qed.

(** Three classes or more, with the elements spelled out. *)
Lemma encode_many_data labels :
  (3 <= n_classes labels)%nat ->
  encode labels =
  Ok ({| classes_ := unique labels; y_type_ := multiclass |},
      {| shape := [length labels; n_classes labels; 2%nat];
         data := (labels ≫=
                    (fun v => indicator_row (n_classes labels)
                                (searchsorted (unique labels) v)))
                 ≫= (fun b => indicator_row 2 (Z.to_nat b)) |}).
Proof.
  intros Hk. unfold n_classes in *.
  assert (Hne : labels <> []) by (intros ->; cbn in Hk; lia).
  unfold encode. rewrite (fit_transform_nonempty _ Hne).
  cbn [mbind result_bind].
  unfold label_binarize, type_of_target.
  destruct (length (unique labels)) as [|[|[|k]]] eqn:Hlen; [lia..|].
  cbn [Nat.leb]. unfold to_categorical. cbn [shape data rev app].
  rewrite list_join_bind, bind_fmap, bind_fmap.
  rewrite np_max_bits.
  - cbn [mbind result_bind]. change (Z.to_nat (1 + 1)) with 2%nat.
    reflexivity.
  - apply Forall_forall. intros b Hb.
    apply list_elem_of_bind in Hb as (v & Hb & _).
    pose proof (indicator_row_bits (S (S (S k))) (searchsorted (unique labels) v)) as H.
    rewrite Forall_forall in H. now apply H.
  - destruct labels as [|v0 r]; [congruence|].
    rewrite bind_cons.
    apply elem_of_app. left. apply one_in_indicator_row.
    rewrite <- Hlen. eapply lookup_lt_Some.
    apply (class_index (v0 :: r) v0). apply elem_of_cons. now left.
Qed.

(** The encoder on a non-empty label array. *)
Lemma encode_nonempty (labels : list string) :
  labels <> [] ->
  exists lb Y rest,
    encode labels = Ok (lb, Y)
    /\ classes_ lb = unique labels
    /\ shape Y = length labels :: rest
    /\ well_shaped Y.
Proof.
  intros Hne. unfold well_shaped.
  destruct (class_count_cases labels Hne) as [H|[H|H]].
  - rewrite (encode_one labels Hne H). eexists _, _, _.
    split; [reflexivity|]. split; [reflexivity|]. split; [reflexivity|].
    cbn [data shape product foldr].
    rewrite (length_bind_rows _ 1) by (intros; reflexivity). lia.
  - rewrite (encode_two labels H). eexists _, _, _.
    split; [reflexivity|]. split; [reflexivity|]. split; [reflexivity|].
    cbn [data shape product foldr].
    rewrite (length_bind_rows _ 2) by (intros; apply indicator_row_length).
    lia.
  - rewrite (encode_many_data labels H). eexists _, _, _.
    split; [reflexivity|]. split; [reflexivity|]. split; [reflexivity|].
    cbn [data shape product foldr].
    rewrite (length_bind_rows _ 2) by (intros; apply indicator_row_length).
    rewrite (length_bind_rows _ (n_classes labels))
      by (intros; apply indicator_row_length).
    lia.
Qed.

(** Fitting and encoding fails on an empty label array and on nothing
    else.  On success the class list is the sorted distinct labels, the
    first axis of the result has one entry per label, and the result
    holds as many elements as its shape says. *)
Theorem encode_fails_only_on_empty (labels : list string) :
  (labels = [] -> encode labels = Raise ValueError)
  /\ (labels <> [] ->
      exists lb Y rest,
        encode labels = Ok (lb, Y)
        /\ classes_ lb = unique labels
        /\ shape Y = length labels :: rest
        /\ well_shaped Y).
Proof.
  split; [now intros ->|apply encode_nonempty].
Qed.

(** The theorem at the empty array and at a two-class array. *)
Lemma encode_fails_only_on_empty_witness :
  encode [] = Raise ValueError
  /\ exists lb Y rest,
       encode ["with_mask"; "without_mask"] = Ok (lb, Y)
       /\ classes_ lb = unique ["with_mask"; "without_mask"]
       /\ shape Y = 2%nat :: rest
       /\ well_shaped Y.
Proof.
  split.
  - exact (proj1 (encode_fails_only_on_empty []) eq_refl).
  - exact (proj2 (encode_fails_only_on_empty ["with_mask"; "without_mask"])
             ltac:(discriminate)).
Defined.

(** *** argmax *)

Lemma argmax_from_spec (p l : list Z) (bi : nat) (best : Z) :
  (bi < length p)%nat -> nth bi p 0 = best ->
  (forall j, (j < length p)%nat -> nth j p 0 <= best) ->
  (forall j, (j < bi)%nat -> nth j p 0 < best) ->
  let r := argmax_from bi best (length p) l in
  (r < length (p ++ l))%nat
  /\ (forall j, (j < length (p ++ l))%nat ->
                nth j (p ++ l) 0 <= nth r (p ++ l) 0)
  /\ (forall j, (j < r)%nat -> nth j (p ++ l) 0 < nth r (p ++ l) 0).
Proof.
  revert p bi best. induction l as [|x l IH]; intros p bi best Hbi Hb Hle Hlt.
  - cbn [argmax_from]. rewrite app_nil_r. cbn zeta. rewrite Hb. auto.
  - cbn [argmax_from]. cbn zeta.
    replace (p ++ x :: l) with ((p ++ [x]) ++ l) by now rewrite <- app_assoc.
    replace (S (length p)) with (length (p ++ [x]))
      by (rewrite length_app; cbn; lia).
    assert (Hn : forall j, (j < length p)%nat ->
                           nth j (p ++ [x]) 0 = nth j p 0)
      by (intros; now apply app_nth1).
    assert (Hx : nth (length p) (p ++ [x]) 0 = x)
      by (rewrite app_nth2, Nat.sub_diag by lia; reflexivity).
    destruct (Z.ltb_spec best x) as [Hbx|Hbx].
    + apply IH.
      * rewrite length_app. cbn. lia.
      * exact Hx.
      * intros j Hj. rewrite length_app in Hj. cbn in Hj.
        destruct (Nat.eq_dec j (length p)) as [->|]; [rewrite Hx; lia|].
        rewrite Hn by lia. specialize (Hle j ltac:(lia)). lia.
      * intros j Hj. rewrite Hn by lia. specialize (Hle j Hj). lia.
    + apply IH.
      * rewrite length_app. lia.
      * rewrite Hn by lia. exact Hb.
      * intros j Hj. rewrite length_app in Hj. cbn in Hj.
        destruct (Nat.eq_dec j (length p)) as [->|]; [rewrite Hx; lia|].
        rewrite Hn by lia. apply Hle. lia.
      * intros j Hj. rewrite Hn by lia. now apply Hlt.
Qed.

Lemma argmax_lt (row : list Z) :
  row <> [] -> (argmax row < length row)%nat.
Proof.
  destruct row as [|x l]; [congruence|]. intros _.
  apply (argmax_from_spec [x] l 0 x).
  - cbn. lia.
  - reflexivity.
  - intros j Hj. cbn in Hj. destruct j; [cbn; lia|lia].
  - intros j Hj. lia.
Qed.

(** The argmax of a non-empty row is the first position that holds the
    row's largest value: nothing in the row is larger, and everything
    before it is smaller, so a tie goes to the lower class index. *)
Theorem argmax_is_first_maximum (row : list Z) :
  row <> [] ->
  (argmax row < length row)%nat
  /\ (forall j, (j < length row)%nat -> nth j row 0 <= nth (argmax row) row 0)
  /\ (forall j, (j < argmax row)%nat -> nth j row 0 < nth (argmax row) row 0).
Proof.
  destruct row as [|x l]; [congruence|]. intros _.
  apply (argmax_from_spec [x] l 0 x).
  - cbn. lia.
  - reflexivity.
  - intros j Hj. cbn in Hj. destruct j; [cbn; lia|lia].
  - intros j Hj. lia.
Qed.

(** The theorem at a tied row. *)
Lemma argmax_is_first_maximum_witness :
  (argmax [5%Z; 5%Z] < 2)%nat
  /\ (forall j, (j < 2)%nat -> nth j [5; 5] 0 <= nth (argmax [5; 5]) [5; 5] 0)
  /\ (forall j, (j < argmax [5%Z; 5%Z])%nat ->
                nth j [5; 5] 0 < nth (argmax [5; 5]) [5; 5] 0).
Proof.
  exact (argmax_is_first_maximum [5; 5] ltac:(discriminate)).
Defined.

Lemma take_all_in_range classes (js : list nat) :
  Forall (fun j => (j < length classes)%nat) js ->
  exists names,
    take_all classes js = Ok names
    /\ Forall2 (fun j c => classes !! j = Some c) js names.
Proof.
  induction 1 as [|j js Hj _ (names & Hn & Hm)].
  - exists []. split; [reflexivity|constructor].
  - apply lookup_lt_is_Some in Hj as [c Hc].
    exists (c :: names). cbn [take_all]. rewrite Hc, Hn.
    split; [reflexivity|]. now constructor.
Qed.

(** The argmax along axis 1 of a matrix given as a list of rows of one
    width. *)
Lemma argmax_axis1_of_rows (w : nat) (rows : list (list Z)) :
  (0 < w)%nat -> Forall (fun r => length r = w) rows ->
  argmax_axis1 {| shape := [length rows; w]; data := mjoin rows |} =
  Ok (array1 (argmax <$> rows)).
Proof.
  intros Hw Hrows. rewrite Forall_forall in Hrows.
  set (f := fun r : list Z =>
              if decide (length r = w) then r else replicate w 0).
  assert (Hf : forall r, r ∈ rows -> f r = r).
  { intros r Hr. unfold f. destruct (decide _) as [|Hn]; [reflexivity|].
    now destruct Hn; apply Hrows. }
  assert (Hd : mjoin rows = rows ≫= f).
  { rewrite list_join_bind. apply bind_ext_in. intros r Hr.
    now rewrite Hf. }
  rewrite Hd, (argmax_axis1_rows f w rows Hw).
  - unfold array1. rewrite length_fmap. do 2 f_equal.
    apply list_fmap_ext. intros i r Hi. rewrite Hf; [reflexivity|].
    eapply list_elem_of_lookup_2. eassumption.
  - intros r. unfold f. destruct (decide _); [assumption|].
    apply length_replicate.
Qed.

(** Whatever the scores, a matrix with one column per fitted class
    decodes without error: the argmax of every row is a valid index into
    the class list, and each sample is given the class name at the
    argmax of its row. *)
Theorem scores_decode_to_classes (lb : LabelBinarizer) (rows : list (list Z)) :
  classes_ lb <> [] ->
  Forall (fun r => length r = length (classes_ lb)) rows ->
  argmax_axis1 {| shape := [length rows; length (classes_ lb)];
                  data := mjoin rows |} = Ok (array1 (argmax <$> rows))
  /\ Forall (fun r => (argmax r < length (classes_ lb))%nat) rows
  /\ exists names,
       decode lb {| shape := [length rows; length (classes_ lb)];
                    data := mjoin rows |} = Ok (array1 names)
       /\ Forall2 (fun r c => classes_ lb !! argmax r = Some c) rows names.
Proof.
  intros Hne Hrows.
  assert (Hw : (0 < length (classes_ lb))%nat)
    by (destruct (classes_ lb); [congruence|cbn; lia]).
  assert (Hidx : Forall (fun r => (argmax r < length (classes_ lb))%nat) rows).
  { eapply Forall_impl; [exact Hrows|]. cbn. intros r Hr.
    rewrite <- Hr. apply argmax_lt. intros ->. cbn in Hr. lia. }
  pose proof (argmax_axis1_of_rows _ rows Hw Hrows) as Ha.
  split; [exact Ha|]. split; [exact Hidx|].
  destruct (take_all_in_range (classes_ lb) (argmax <$> rows))
    as (names & Hn & Hm).
  { now apply Forall_fmap. }
  exists names. unfold decode. rewrite Ha. cbn [mbind result_bind].
  unfold take, array1. cbn [data shape]. rewrite Hn.
  cbn [mbind result_bind]. rewrite length_fmap.
  apply Forall2_fmap_l in Hm.
  split; [|exact Hm].
  now rewrite (Forall2_length _ _ _ Hm).
Qed.

(** The theorem at two score rows over the two class names of the
    project. *)
Lemma scores_decode_to_classes_witness :
  argmax_axis1 {| shape := [2%nat; 2%nat]; data := mjoin [[3; 7]; [4; 4]] |}
    = Ok (array1 (argmax <$> [[3; 7]; [4; 4]]))
  /\ Forall (fun r => (argmax r < 2)%nat) [[3; 7]; [4; 4]]
  /\ exists names,
       decode {| classes_ := ["with_mask"; "without_mask"];
                 y_type_ := binary |}
         {| shape := [2%nat; 2%nat]; data := mjoin [[3; 7]; [4; 4]] |}
         = Ok (array1 names)
       /\ Forall2 (fun r c => ["with_mask"; "without_mask"] !! argmax r
                               = Some c)
            [[3; 7]; [4; 4]] names.
Proof.
  exact (scores_decode_to_classes
           {| classes_ := ["with_mask"; "without_mask"]; y_type_ := binary |}
           [[3; 7]; [4; 4]]
           ltac:(discriminate)
           ltac:(repeat constructor)).
Defined.

End EncoderExtra.

(** ** Loading and encoding together (lines 48-73) *)

Module PipelineExtra.
Import Loader LoaderFacts Encoder EncoderFacts Invariants.
Import LoaderExtra EncoderExtra.

Section Pipeline.

Context {Image : Type}.
Variable load_image : string -> result Image.

Lemma Forall_both_Forall2 (ps : list string) :
  Forall (fun p => (exists l, label_of p = Ok l)
                   /\ exists x, load_image p = Ok x) ps ->
  exists labels data,
    Forall2 (fun p l => label_of p = Ok l) ps labels
    /\ Forall2 (fun p x => load_image p = Ok x) ps data.
Proof.
  induction 1 as [|p ps [[l Hl] [x Hx]] _ (ls & d & H1 & H2)].
  - exists [], []. split; constructor.
  - exists (l :: ls), (x :: d). split; constructor; assumption.
Qed.

(** Loading and encoding together succeed exactly when the enumeration
    is not empty and every enumerated path has a directory part to take
    the label from and a file that loads. *)
Theorem pipeline_succeeds_iff (basePath : string) (root : option node) :
  (exists r, load_and_encode load_image basePath root = Ok r) <->
  list_images basePath root <> []
  /\ Forall (fun p => (exists l, label_of p = Ok l)
                      /\ exists x, load_image p = Ok x)
       (list_images basePath root).
Proof.
  unfold load_and_encode, load_dataset.
  generalize (list_images basePath root). intros ps. split.
  - intros [[data [lb Y]] H].
    destruct (load_loop load_image ps [] []) as [[d ls]|e] eqn:E;
      [|discriminate].
    apply load_loop_Forall2 in E as [H1 H2].
    cbn [mbind result_bind] in H.
    split.
    + intros ->. apply Forall2_nil_inv_l in H1. subst ls. discriminate H.
    + apply Forall_forall. intros p Hp.
      apply list_elem_of_lookup_1 in Hp as [i Hi].
      destruct (Forall2_lookup_l _ _ _ _ _ H1 Hi) as (l & _ & Hl).
      destruct (Forall2_lookup_l _ _ _ _ _ H2 Hi) as (x & _ & Hx).
      eauto.
  - intros [Hne Hall].
    destruct (Forall_both_Forall2 ps Hall) as (ls & d & H1 & H2).
    rewrite (proj2 (load_loop_Forall2 load_image ps d ls) (conj H1 H2)).
    cbn [mbind result_bind].
    assert (Hls : ls <> []).
    { intros ->. apply Forall2_nil_inv_r in H1. contradiction. }
    destruct (encode_nonempty ls Hls) as (lb & Y & rest & -> & _).
    cbn [mbind result_bind]. eauto.
Qed.

(** When loading and encoding succeed there is at least one image, the
    images are as many as the enumerated paths, the encoded labels have
    one row per image, and every class name is the directory name of
    some enumerated image. *)
Theorem one_row_per_image (basePath : string) (root : option node)
  (data : list Image) (lb : LabelBinarizer) (Y : ndarray Z) :
  load_and_encode load_image basePath root = Ok (data, (lb, Y)) ->
  data <> []
  /\ length data = length (list_images basePath root)
  /\ (exists rest, shape Y = length data :: rest)
  /\ well_shaped Y
  /\ Forall (fun c => exists p, p ∈ list_images basePath root
                                /\ label_of p = Ok c) (classes_ lb).
Proof.
  unfold load_and_encode, load_dataset.
  generalize (list_images basePath root). intros ps H.
  destruct (load_loop load_image ps [] []) as [[d ls]|e] eqn:E;
    [|discriminate].
  apply load_loop_Forall2 in E as [H1 H2].
  cbn [mbind result_bind] in H.
  destruct ls as [|l0 ls0] eqn:Els; [discriminate H|]. rewrite <- Els in *.
  assert (Hls : ls <> []) by (rewrite Els; discriminate).
  destruct (encode_nonempty ls Hls) as (lb' & Y' & rest & Henc & Hc & Hs & Hw).
  rewrite Henc in H. cbn [mbind result_bind] in H.
  injection H as <- <- <-.
  pose proof (Forall2_length _ _ _ H1) as L1.
  pose proof (Forall2_length _ _ _ H2) as L2.
  split; [|split; [|split; [|split]]].
  - intros ->. rewrite Els in L1. cbn in *. lia.
  - lia.
  - exists rest. rewrite Hs. f_equal. lia.
  - exact Hw.
  - rewrite Hc. apply Forall_forall. intros c Hcin.
    apply (proj1 (elem_of_unique _ _)) in Hcin.
    apply list_elem_of_lookup_1 in Hcin as [i Hi].
    destruct (Forall2_lookup_r _ _ _ _ _ H1 Hi) as (p & Hp & Hl).
    exists p. split; [|exact Hl]. eapply list_elem_of_lookup_2. eassumption.
Qed.

End Pipeline.

(** The first theorem at the example directory with images. *)
Lemma pipeline_succeeds_iff_witness :
  exists r, load_and_encode (fun _ => Ok tt) "dataset"
              (Some dataset_with_images) = Ok r.
Proof.
  apply (pipeline_succeeds_iff (fun _ => Ok tt) "dataset"
           (Some dataset_with_images)).
  split; [discriminate|].
  repeat constructor; eexists; reflexivity.
Defined.

(** The second theorem at a directory of two classes with one image
    each. *)
Lemma one_row_per_image_witness :
  [tt; tt] <> []
  /\ length [tt; tt]
     = length (list_images "dataset"
                 (Some (Directory
                          [("with_mask", Directory [("b.jpg", File)]);
                           ("without_mask", Directory [("c.png", File)])])))
  /\ (exists rest, [2%nat; 2%nat] = length [tt; tt] :: rest)
  /\ well_shaped {| shape := [2%nat; 2%nat]; data := [1; 0; 0; 1] |}
  /\ Forall (fun c => exists p,
                p ∈ list_images "dataset"
                      (Some (Directory
                               [("with_mask", Directory [("b.jpg", File)]);
                                ("without_mask",
                                 Directory [("c.png", File)])]))
                /\ label_of p = Ok c)
       ["with_mask"; "without_mask"].
Proof.
  exact (one_row_per_image (fun _ => Ok tt) "dataset"
           (Some (Directory
                    [("with_mask", Directory [("b.jpg", File)]);
                     ("without_mask", Directory [("c.png", File)])]))
           [tt; tt]
           {| classes_ := ["with_mask"; "without_mask"]; y_type_ := binary |}
           {| shape := [2%nat; 2%nat]; data := [1; 0; 0; 1] |}
           eq_refl).
Defined.

End PipelineExtra.

(** ** Freezing on the heap (lines 110-111) *)

Module NetworkExtra.
Import Network NetworkFacts.

Section Extra.

Context {W : Type}.
Variable update : nat -> gmap nat (@Layer W) -> nat -> list W.

Implicit Types (h : gmap nat (@Layer W)) (l : @Layer W).

(** Freezing changes the [trainable] flag and nothing else.  It keeps
    the set of objects, every name and every weight, leaves every object
    outside the listed layers as it was, gives the same heap when run a
    second time, and depends only on which layers are listed, not on
    their order or on repetitions. *)
Theorem freeze_changes_flags_only (base base' : list nat) h :
  dom (freeze base h) = dom h
  /\ (forall id, name <$> freeze base h !! id = name <$> h !! id
                 /\ weights <$> freeze base h !! id = weights <$> h !! id)
  /\ (forall id, id ∉ base -> freeze base h !! id = h !! id)
  /\ freeze base (freeze base h) = freeze base h
  /\ ((forall id, id ∈ base <-> id ∈ base') ->
      freeze base h = freeze base' h).
Proof.
  split; [|split; [|split; [|split]]].
  - apply set_eq. intros id. rewrite !elem_of_dom, (freeze_lookup update).
    destruct (decide (id ∈ base)); [|reflexivity].
    now rewrite fmap_is_Some.
  - intros id. rewrite (freeze_lookup update).
    destruct (decide (id ∈ base)); [|split; reflexivity].
    destruct (h !! id); split; reflexivity.
  - intros id Hid. now rewrite (freeze_lookup update), decide_False.
  - apply map_eq. intros id. rewrite !(freeze_lookup update).
    destruct (decide (id ∈ base)); [|reflexivity].
    destruct (h !! id); reflexivity.
  - intros Hsame. apply map_eq. intros id. rewrite !(freeze_lookup update).
    destruct (decide (id ∈ base)) as [Hb|Hb];
      destruct (decide (id ∈ base')) as [Hb'|Hb'];
      try reflexivity; exfalso; apply Hsame in Hb || apply Hsame in Hb';
      contradiction.
Qed.

End Extra.
End NetworkExtra.

(** ** The parser on other command lines (lines 29-37) *)

Module CliExtra.
Import Cli CliFacts Invariants.

Lemma classify_cons_flag s a o e rest :
  String.eqb s "--" = false -> parse_optional ap s = Flag a o e ->
  classify ap (s :: rest) = cons (TO (Some (a, o, e))) <$> classify ap rest.
Proof. intros H1 H2. cbn [classify]. now rewrite H1, H2. Qed.

Lemma classify_cons_plain d rest :
  String.prefix "-" d = false ->
  classify ap (d :: rest) = cons (TA d) <$> classify ap rest.
Proof.
  intros H. destruct (plain_argument d H) as [H1 H2].
  cbn [classify]. now rewrite H1, H2.
Qed.

Lemma finish_parsed st :
  "dataset" ∈ seen_actions st -> extras st = false ->
  finish ap st = Parsed (namespace st).
Proof.
  intros Hd He. unfold finish, ap.
  cbn [forallb required dest help_option dataset_option plot_option
       model_option negb orb andb].
  now rewrite (bool_decide_eq_true_2 _ Hd), He.
Qed.

Ltac read_flags :=
  repeat first
    [ erewrite classify_cons_flag by reflexivity
    | rewrite classify_cons_plain by assumption ];
  cbn [classify fmap option_fmap option_map].

Ltac lookups :=
  rewrite ?initial_namespace_ap; cbn [namespace take_action];
  repeat first
    [ rewrite lookup_insert_eq
    | rewrite lookup_insert_ne by discriminate ];
  rewrite ?get_values_plain by (now apply plain_argument);
  try reflexivity.

Ltac seen_dataset :=
  cbn [seen_actions take_action dest dataset_option plot_option model_option];
  rewrite ?elem_of_union, ?elem_of_singleton; auto.

(** Every given value is returned under its key, in the long and in the
    short spelling and in either order; of two values for one option the
    later one stays. *)
Theorem given_values_returned (d p m x : string) :
  String.prefix "-" d = false -> String.prefix "-" p = false ->
  String.prefix "-" m = false -> String.prefix "-" x = false ->
  (exists args,
     args_of ["--dataset"; d; "--plot"; p; "--model"; m] = Parsed args
     /\ args !! "dataset" = Some (PyStr d) /\ args !! "plot" = Some (PyStr p)
     /\ args !! "model" = Some (PyStr m))
  /\ (exists args,
        args_of ["-m"; m; "-p"; p; "-d"; d] = Parsed args
        /\ args !! "dataset" = Some (PyStr d) /\ args !! "plot" = Some (PyStr p)
        /\ args !! "model" = Some (PyStr m))
  /\ (exists args,
        args_of ["-d"; x; "-d"; d] = Parsed args
        /\ args !! "dataset" = Some (PyStr d)).
Proof.
  intros Hd Hp Hm Hx. unfold args_of, parse_args. split; [|split].
  - read_flags. cbn [consume act dataset_option plot_option model_option].
    rewrite finish_parsed by (try reflexivity; seen_dataset).
    eexists. split; [reflexivity|]. repeat split; lookups.
  - read_flags. cbn [consume act dataset_option plot_option model_option].
    rewrite finish_parsed by (try reflexivity; seen_dataset).
    eexists. split; [reflexivity|]. repeat split; lookups.
  - read_flags. cbn [consume act dataset_option plot_option model_option].
    rewrite finish_parsed by (try reflexivity; seen_dataset).
    eexists. split; [reflexivity|]. lookups.
Qed.

(** The theorem at the values [data], [loss.png], [mask.h5] and [old]. *)
Lemma given_values_returned_witness :
  (exists args,
     args_of ["--dataset"; "data"; "--plot"; "loss.png"; "--model"; "mask.h5"]
       = Parsed args
     /\ args !! "dataset" = Some (PyStr "data")
     /\ args !! "plot" = Some (PyStr "loss.png")
     /\ args !! "model" = Some (PyStr "mask.h5"))
  /\ (exists args,
        args_of ["-m"; "mask.h5"; "-p"; "loss.png"; "-d"; "data"]
          = Parsed args
        /\ args !! "dataset" = Some (PyStr "data")
        /\ args !! "plot" = Some (PyStr "loss.png")
        /\ args !! "model" = Some (PyStr "mask.h5"))
  /\ (exists args,
        args_of ["-d"; "old"; "-d"; "data"] = Parsed args
        /\ args !! "dataset" = Some (PyStr "data")).
Proof.
  exact (given_values_returned "data" "loss.png" "mask.h5" "old"
           eq_refl eq_refl eq_refl eq_refl).
Defined.

(** *** What a returned namespace holds *)

Lemma get_values_single v :
  get_values [v] = if String.eqb v "--" then PyList [] else PyStr v.
Proof.
  unfold get_values. cbn [remove_first]. now destruct (String.eqb v "--").
Qed.

Lemma take_action_holds (P : value -> Prop) a v st :
  a ∈ ap -> act a = store -> P (get_values [v]) ->
  holds P st -> holds P (take_action a [v] st).
Proof.
  intros Ha Hact Hv (Hp & Hm & Hd). unfold holds.
  cbn [take_action namespace seen_actions].
  unfold ap in Ha.
  repeat (apply elem_of_cons in Ha as [->|Ha]);
    [discriminate| | | |now apply elem_of_nil in Ha];
    cbn [dest dataset_option plot_option model_option].
  - split; [|split].
    + now rewrite lookup_insert_ne by discriminate.
    + now rewrite lookup_insert_ne by discriminate.
    + intros _. rewrite lookup_insert_eq. eauto.
  - split; [|split].
    + rewrite lookup_insert_eq. eauto.
    + now rewrite lookup_insert_ne by discriminate.
    + intros [H|H]%elem_of_union;
        [apply elem_of_singleton in H; discriminate|].
      rewrite lookup_insert_ne by discriminate. auto.
  - split; [|split].
    + now rewrite lookup_insert_ne by discriminate.
    + rewrite lookup_insert_eq. eauto.
    + intros [H|H]%elem_of_union;
        [apply elem_of_singleton in H; discriminate|].
      rewrite lookup_insert_ne by discriminate. auto.
Qed.

(** The loop keeps the kind of the values, as long as every value it
    meets is of that kind. *)
Lemma consume_holds (P : value -> Prop) n toks st args :
  (length toks <= n)%nat ->
  (forall a o e, TO (Some (a, o, e)) ∈ toks -> a ∈ ap) ->
  (forall a o v, TO (Some (a, o, Some v)) ∈ toks -> P (get_values [v])) ->
  (forall v, TA v ∈ toks -> P (get_values [v])) ->
  holds P st -> consume ap toks st = Parsed args ->
  exists d p m,
    args !! "dataset" = Some d /\ args !! "plot" = Some p
    /\ args !! "model" = Some m /\ P d /\ P p /\ P m.
Proof.
  revert toks st. induction n as [|n IH];
    intros toks st Hlen Hap He Hv Hst Hc;
    apply consume_parsed in Hc
      as [[-> Hf]|[(tok & rest & -> & _ & Hc)
                  |[(a & o & v & rest & Ha & -> & Hc)
                   |(a & o & v & rest & Ha & -> & Hc)]]];
    cbn [length] in Hlen; try lia.
  all: try (apply finish_parsed_inv in Hf as (_ & Hseen & ->);
            destruct Hst as ((p & Hp & Pp) & (m & Hm & Pm) & Hd);
            destruct (Hd Hseen) as (d & Hd' & Pd);
            exists d, p, m; auto 10).
  - now apply (consume_extras (length rest)) in Hc.
  - refine (IH rest _ _ _ _ _ _ Hc); [lia|..].
    + intros a' o' e' Hin. apply (Hap a' o' e'). now apply list_elem_of_further.
    + intros a' o' v' Hin. apply (He a' o' v'). now apply list_elem_of_further.
    + intros v' Hin. apply Hv. now apply list_elem_of_further.
    + apply take_action_holds; [|assumption| |assumption].
      * apply (Hap a o (Some v)), list_elem_of_here.
      * apply (He a o v), list_elem_of_here.
  - refine (IH rest _ _ _ _ _ _ Hc); [lia|..].
    + intros a' o' e' Hin. apply (Hap a' o' e').
      now apply list_elem_of_further, list_elem_of_further.
    + intros a' o' v' Hin. apply (He a' o' v').
      now apply list_elem_of_further, list_elem_of_further.
    + intros v' Hin. apply Hv.
      now apply list_elem_of_further, list_elem_of_further.
    + apply take_action_holds; [|assumption| |assumption].
      * apply (Hap a o None), list_elem_of_here.
      * apply Hv, list_elem_of_further, list_elem_of_here.
Qed.

Lemma holds_initially (P : value -> Prop) :
  (forall s, P (PyStr s)) ->
  holds P {| namespace := initial_namespace ap; seen_actions := ∅;
             extras := false |}.
Proof.
  intros HP. unfold holds. cbn [namespace seen_actions].
  rewrite initial_namespace_ap. split; [|split].
  - rewrite lookup_insert_ne by discriminate. rewrite lookup_insert_eq. eauto.
  - rewrite lookup_insert_eq. eauto.
  - intros H. now apply elem_of_empty in H.
Qed.

Lemma endswith_app pre v : Loader.endswith (pre +:+ v) v = true.
Proof.
  induction pre as [|c pre IH].
  - change (EmptyString +:+ v) with v. destruct v; cbn [Loader.endswith];
      rewrite ?String.eqb_refl; reflexivity.
  - change (String c pre +:+ v) with (String c (pre +:+ v)).
    cbn [Loader.endswith]. rewrite IH. apply orb_true_r.
Qed.

Lemma append_snoc pre c v :
  pre +:+ String c v = (pre +:+ String c EmptyString) +:+ v.
Proof.
  induction pre as [|x pre IH]; [reflexivity|].
  change (String x pre +:+ String c v) with (String x (pre +:+ String c v)).
  now rewrite IH.
Qed.

(** A value attached to an option is the end of the string it came
    in. *)
Lemma explicit_arg_suffix s a o v :
  parse_optional ap s = Flag a o (Some v) -> exists pre, s = pre +:+ v.
Proof.
  unfold parse_optional. destruct s as [|c r]; [discriminate|].
  destruct (Ascii.eqb_spec c "-") as [->|Hc]; cbn [negb]; [|discriminate].
  destruct (find_option ap (String "-" r)); [discriminate|].
  destruct r as [|c2 r2]; cbn [nonempty]; [discriminate|]. cbv zeta.
  assert (Htuples :
    match get_option_tuples ap (String "-" (String c2 r2)) with
    | [] =>
        if negative_number_like (String "-" (String c2 r2)) then Positional
        else if mem_char " " (String "-" (String c2 r2)) then Positional
        else Unknown
    | [(a1, o1, e1)] => Flag a1 o1 e1
    | _ :: _ :: _ => Ambiguous
    end = Flag a o (Some v) ->
    exists pre, String "-" (String c2 r2) = pre +:+ v).
  { destruct (get_option_tuples ap (String "-" (String c2 r2)))
      as [|[[a1 o1] e1] [|? ?]] eqn:Et.
    - destruct (negative_number_like _); [discriminate|].
      destruct (mem_char _ _); discriminate.
    - intros H. injection H as <- <- ->.
      assert (Hin : (a1, o1, Some v)
                    ∈ get_option_tuples ap (String "-" (String c2 r2)))
        by (rewrite Et; apply list_elem_of_here).
      rewrite get_option_tuples_second in Hin.
      destruct (Ascii.eqb_spec c2 "-") as [->|_].
      + remember (split_at "=" (String "-" (String "-" r2))) as sp eqn:Es.
        symmetry in Es.
        apply list_elem_of_omap in Hin as ([s' a'] & _ & Hin).
        destruct (String.prefix _ _); [|discriminate Hin].
        injection Hin as _ _ Hin.
        destruct sp as [[o2 e2]|]; [|discriminate Hin].
        cbn in Hin. injection Hin as ->. apply split_at_spec in Es.
        rewrite Es, append_snoc. eauto.
      + apply list_elem_of_omap in Hin as ([s' a'] & _ & Hin).
        cbn [fst snd] in Hin. destruct (String.eqb s' _).
        * injection Hin as _ _ <-.
          now exists (String "-" (String c2 EmptyString)).
        * destruct (String.prefix _ s'); discriminate.
    - discriminate. }
  destruct (split_at "=" (String "-" (String c2 r2))) as [[o1 e1]|] eqn:Es;
    cbn [mbind option_bind]; [|exact Htuples].
  destruct (find_option ap o1) as [a1|];
    cbn [mbind option_bind]; [|exact Htuples].
  intros H. injection H as <- <- <-. apply split_at_spec in Es.
  rewrite Es, append_snoc. eauto.
Qed.

(** A plain token is a string of the command line. *)
Lemma classify_plain argv toks v :
  classify ap argv = Some toks -> TA v ∈ toks -> v ∈ argv.
Proof.
  revert toks. induction argv as [|s rest IH]; intros toks Hc Hin.
  - injection Hc as <-. now apply elem_of_nil in Hin.
  - cbn [classify] in Hc. destruct (String.eqb s "--").
    { injection Hc as <-. apply elem_of_cons in Hin as [Hin|Hin];
        [discriminate|].
      apply list_elem_of_fmap in Hin as (x & Hx & Hin).
      injection Hx as ->. now apply list_elem_of_further. }
    destruct (parse_optional ap s) as [|a1 o1 e1| |] eqn:Ep;
      [| | |discriminate];
      (destruct (classify ap rest) as [toks'|]; [|discriminate];
       cbn in Hc; injection Hc as <-;
       apply elem_of_cons in Hin as [Hin|Hin];
       [|apply list_elem_of_further; now apply (IH toks')]);
      try discriminate.
    injection Hin as ->. apply list_elem_of_here.
Qed.

(** Whenever parsing returns, the three values the script reads from
    [args] are there and none is [None]: each is a string or the empty
    list.  They are all strings when no string of the command line ends
    in [--]; the empty list is what a value [--] attached to its option
    leaves. *)
Theorem parsed_values_are_strings_or_empty (argv : list string)
  (args : gmap string value) :
  args_of argv = Parsed args ->
  (exists d p m,
     args !! "dataset" = Some d /\ args !! "plot" = Some p
     /\ args !! "model" = Some m
     /\ string_or_empty_list d /\ string_or_empty_list p
     /\ string_or_empty_list m)
  /\ (Forall (fun s => Loader.endswith s "--" = false) argv ->
      exists d p m,
        args !! "dataset" = Some (PyStr d) /\ args !! "plot" = Some (PyStr p)
        /\ args !! "model" = Some (PyStr m))
  /\ (exists args',
        args_of ["--dataset=--"] = Parsed args'
        /\ args' !! "dataset" = Some (PyList [])).
Proof.
  unfold args_of at 1, parse_args.
  destruct (classify ap argv) as [toks|] eqn:Ec; [|discriminate].
  destruct (classify_tokens _ _ Ec) as (Hflag & _ & _).
  assert (Hap : forall a o e, TO (Some (a, o, e)) ∈ toks -> a ∈ ap).
  { intros a o e Hin. destruct (Hflag _ _ _ Hin) as (s & _ & Hp).
    now apply resolve_spells in Hp as [Ha _]. }
  intros Hc. split; [|split].
  - apply (consume_holds string_or_empty_list (length toks) _ _ _
             (le_n _) Hap) in Hc; [assumption|..].
    + intros a o v _. rewrite get_values_single.
      destruct (String.eqb v "--"); [now right|left; now exists v].
    + intros v _. rewrite get_values_single.
      destruct (String.eqb v "--"); [now right|left; now exists v].
    + apply holds_initially. intros s. left. now exists s.
  - intros Hno. rewrite Forall_forall in Hno.
    apply (consume_holds is_string (length toks) _ _ _
             (le_n _) Hap) in Hc.
    + destruct Hc as (d & p & m & Hd & Hp & Hm & [d' ->] & [p' ->] & [m' ->]).
      now exists d', p', m'.
    + intros a o v Hin. destruct (Hflag _ _ _ Hin) as (s & Hs & Hp).
      apply elem_of_option_part in Hs.
      apply explicit_arg_suffix in Hp as [pre ->].
      rewrite get_values_single.
      destruct (String.eqb_spec v "--") as [->|_]; [|now exists v].
      specialize (Hno _ Hs). now rewrite endswith_app in Hno.
    + intros v Hin. apply (classify_plain _ _ _ Ec) in Hin.
      rewrite get_values_single.
      destruct (String.eqb_spec v "--") as [->|_]; [|now exists v].
      specialize (Hno _ Hin). discriminate Hno.
    + apply holds_initially. intros s. now exists s.
  - eexists. split; reflexivity.
Qed.

(** The theorem at a command line that names the dataset only. *)
Lemma parsed_values_are_strings_or_empty_witness :
  exists d p m,
    <["dataset" := PyStr "faces"]> (initial_namespace ap) !! "dataset"
      = Some (PyStr d)
    /\ <["dataset" := PyStr "faces"]> (initial_namespace ap) !! "plot"
       = Some (PyStr p)
    /\ <["dataset" := PyStr "faces"]> (initial_namespace ap) !! "model"
       = Some (PyStr m).
Proof.
  exact (proj1 (proj2 (parsed_values_are_strings_or_empty
                         ["--dataset"; "faces"] _
                         (dataset_only "faces" eq_refl)))
           ltac:(repeat constructor)).
Defined.

(** *** No positional arguments *)

(** Once a string was left over the loop ends the process. *)
Lemma consume_leftover n toks st :
  (length toks <= n)%nat -> extras st = true ->
  exists status, consume ap toks st = Exit status.
Proof.
  revert toks st. induction n as [|n IH]; intros toks st Hlen He.
  { destruct toks; [|cbn in Hlen; lia]. cbn [consume]. unfold finish.
    rewrite He. destruct (forallb _ _); eauto. }
  destruct toks as [|tok rest].
  { cbn [consume]. unfold finish. rewrite He. destruct (forallb _ _); eauto. }
  cbn [length] in Hlen.
  destruct tok as [s| |[[[a o] e]|]]; cbn [consume];
    try (apply IH; [lia|reflexivity]).
  destruct (act a).
  - destruct e as [v|]; [apply IH; [lia|exact He]|].
    destruct rest as [|[v| |?] rest']; eauto.
    cbn [length] in Hlen. apply IH; [lia|exact He].
  - destruct e; [destruct (is_short o)|]; eauto.
Qed.

(** Two plain strings in a row: the second cannot be a value. *)
Lemma consume_two_plain n pre a b rest st :
  (length pre <= n)%nat ->
  exists status, consume ap (pre ++ TA a :: TA b :: rest) st = Exit status.
Proof.
  revert pre st. induction n as [|n IH]; intros pre st Hlen.
  { destruct pre; [|cbn in Hlen; lia]. cbn [app consume].
    apply (consume_leftover (length rest)); [lia|reflexivity]. }
  destruct pre as [|tok pre].
  { cbn [app consume].
    apply (consume_leftover (length rest)); [lia|reflexivity]. }
  cbn [length] in Hlen. cbn [app].
  destruct tok as [s| |[[[x o] e]|]]; cbn [consume];
    try (apply (consume_leftover (length (pre ++ TA a :: TA b :: rest)));
         [lia|reflexivity]).
  destruct (act x).
  - destruct e as [v|]; [apply IH; lia|].
    destruct pre as [|[v| |?] pre']; cbn [app]; eauto.
    + cbn [consume].
      apply (consume_leftover (length rest)); [lia|reflexivity].
    + cbn [length] in Hlen. apply IH. lia.
  - destruct e; [destruct (is_short o)|]; eauto.
Qed.

Lemma consume_dash n toks st :
  (length toks <= n)%nat -> TDash ∈ toks ->
  exists status, consume ap toks st = Exit status.
Proof.
  revert toks st. induction n as [|n IH]; intros toks st Hlen Hin.
  { destruct toks; [now apply elem_of_nil in Hin|cbn in Hlen; lia]. }
  destruct toks as [|tok rest]; [now apply elem_of_nil in Hin|].
  cbn [length] in Hlen.
  destruct tok as [s| |[[[x o] e]|]]; cbn [consume];
    try (apply (consume_leftover (length rest)); [lia|reflexivity]).
  apply elem_of_cons in Hin as [Hin|Hin]; [discriminate|].
  destruct (act x).
  - destruct e as [v|]; [apply IH; [lia|assumption]|].
    destruct rest as [|[v| |?] rest']; eauto.
    cbn [length] in Hlen.
    apply elem_of_cons in Hin as [Hin|Hin]; [discriminate|].
    apply IH; [lia|assumption].
  - destruct e; [destruct (is_short o)|]; eauto.
Qed.

Lemma classify_app_plain pre a b post toks :
  String.prefix "-" a = false -> String.prefix "-" b = false ->
  classify ap (pre ++ a :: b :: post) = Some toks ->
  TDash ∈ toks
  \/ exists tpre tpost, toks = tpre ++ TA a :: TA b :: tpost.
Proof.
  intros Ha Hb. revert toks. induction pre as [|s pre IH]; intros toks Hc.
  - cbn [app] in Hc. rewrite !classify_cons_plain in Hc by assumption.
    destruct (classify ap post) as [tpost|]; [|discriminate].
    cbn in Hc. injection Hc as <-. right. now exists [], tpost.
  - cbn [app classify] in Hc. destruct (String.eqb s "--").
    { injection Hc as <-. left. apply elem_of_cons. now left. }
    destruct (parse_optional ap s) as [|x o e| |]; [| | |discriminate];
      (destruct (classify ap (pre ++ a :: b :: post)) as [toks'|];
       [|discriminate]; cbn in Hc; injection Hc as <-;
       destruct (IH _ eq_refl) as [Hd|(tpre & tpost & ->)];
       [left; apply elem_of_cons; now right|right]).
    + now exists (TA s :: tpre), tpost.
    + now exists (TO (Some (x, o, e)) :: tpre), tpost.
    + now exists (TO None :: tpre), tpost.
Qed.

(** The script takes no positional arguments: a command line that begins
    with a plain string, or holds two plain strings in a row, never
    parses. *)
Theorem no_positional_arguments (pre post : list string) (a b : string) :
  String.prefix "-" a = false -> String.prefix "-" b = false ->
  (exists status, args_of (a :: post) = Exit status)
  /\ (exists status, args_of (pre ++ a :: b :: post) = Exit status).
Proof.
  intros Ha Hb. unfold args_of, parse_args. split.
  - rewrite classify_cons_plain by assumption.
    destruct (classify ap post) as [toks|]; [|eauto]. cbn [fmap option_fmap option_map consume].
    apply (consume_leftover (length toks)); [lia|reflexivity].
  - destruct (classify ap (pre ++ a :: b :: post)) as [toks|] eqn:Ec; [|eauto].
    destruct (classify_app_plain _ _ _ _ _ Ha Hb Ec)
      as [Hd|(tpre & tpost & ->)].
    + now apply (consume_dash (length toks)).
    + now apply (consume_two_plain (length tpre)).
Qed.

(** The theorem at two command lines with a stray word. *)
Lemma no_positional_arguments_witness :
  (exists status, args_of ["faces"; "--plot"; "p.png"] = Exit status)
  /\ (exists status,
        args_of (["--dataset"] ++ ["faces"; "extra"; "-m"; "x.h5"])
        = Exit status).
Proof.
  exact (no_positional_arguments ["--dataset"] _ "faces" "extra"
           eq_refl eq_refl).
Defined.

(** *** Values that begin with a dash *)

Lemma dash_not_positional v :
  String.prefix "-" v = true -> v <> "-" ->
  negative_number_like v = false -> mem_char " " v = false ->
  parse_optional ap v <> Positional.
Proof.
  intros Hp Hne Hneg Hsp. unfold parse_optional.
  destruct v as [|c r]; [discriminate|].
  rewrite prefix_cons, prefix_nil_l in Hp.
  destruct (Ascii.eqb_spec "-" c) as [<-|]; [|discriminate].
  cbn [Ascii.eqb Bool.eqb negb].
  destruct (find_option ap (String "-" r)); [discriminate|].
  destruct r as [|c2 r2]; [congruence|]. cbn [nonempty]. cbv zeta.
  destruct (_ ≫= _) as [[[a o] e]|]; [discriminate|].
  destruct (get_option_tuples ap _) as [|[[a o] e] [|? ?]]; try discriminate.
  rewrite Hneg, Hsp. discriminate.
Qed.

(** A value that looks like an option is refused when it stands apart
    from [--dataset] and taken when attached with [=]: as it is, except
    that the value [--] leaves the empty list. *)
Theorem dash_value_needs_equals (v : string) :
  String.prefix "-" v = true -> v <> "-" ->
  negative_number_like v = false -> mem_char " " v = false ->
  args_of ["--dataset"; v] = Exit 2
  /\ exists args,
       args_of ["--dataset=" +:+ v] = Parsed args
       /\ args !! "dataset"
          = Some (if String.eqb v "--" then PyList [] else PyStr v)
       /\ args !! "plot" = Some (PyStr "plots/plot.png")
       /\ args !! "model" = Some (PyStr "face_mask_detector.model").
Proof.
  intros Hp Hne Hneg Hsp. unfold args_of, parse_args. split.
  - erewrite classify_cons_flag by reflexivity. cbn [classify].
    destruct (String.eqb v "--"); [reflexivity|].
    pose proof (dash_not_positional v Hp Hne Hneg Hsp) as Hn.
    destruct (parse_optional ap v); [congruence|reflexivity..].
  - erewrite (classify_cons_flag _ dataset_option "--dataset" (Some v));
      [|reflexivity|reflexivity].
    cbn [classify fmap option_fmap option_map consume act dataset_option].
    rewrite finish_parsed by (try reflexivity; seen_dataset).
    eexists. split; [reflexivity|].
    cbn [namespace take_action dest dataset_option].
    rewrite initial_namespace_ap, lookup_insert_eq, get_values_single.
    split; [reflexivity|].
    split; (rewrite lookup_insert_ne by discriminate);
      [rewrite lookup_insert_ne by discriminate|];
      now rewrite lookup_insert_eq.
Qed.

(** The theorem at the value [-raw]. *)
Lemma dash_value_needs_equals_witness :
  args_of ["--dataset"; "-raw"] = Exit 2
  /\ exists args,
       args_of ["--dataset=-raw"] = Parsed args
       /\ args !! "dataset" = Some (PyStr "-raw")
       /\ args !! "plot" = Some (PyStr "plots/plot.png")
       /\ args !! "model" = Some (PyStr "face_mask_detector.model").
Proof.
  exact (dash_value_needs_equals "-raw" eq_refl
           ltac:(discriminate) eq_refl eq_refl).
Defined.

(** *** Abbreviations *)

(** Every abbreviation of a long option, down to its first letter, is
    read as that option. *)
Theorem abbreviations_accepted (s d : string) :
  (3 <= String.length s)%nat -> String.prefix "-" d = false ->
  (String.prefix s "--dataset" = true ->
   parse_optional ap s = Flag dataset_option "--dataset" None
   /\ args_of [s; d] = args_of ["--dataset"; d])
  /\ (String.prefix s "--plot" = true ->
      parse_optional ap s = Flag plot_option "--plot" None
      /\ args_of [s; d; "-d"; d] = args_of ["--plot"; d; "-d"; d])
  /\ (String.prefix s "--model" = true ->
      parse_optional ap s = Flag model_option "--model" None
      /\ args_of [s; d; "-d"; d] = args_of ["--model"; d; "-d"; d]).
Proof.
  intros Hlen Hd. unfold args_of, parse_args. split; [|split]; intros H.
  - do 10 (try peel H); cbn [String.length] in Hlen; try lia;
      (split; [reflexivity|]); read_flags; reflexivity.
  - do 7 (try peel H); cbn [String.length] in Hlen; try lia;
      (split; [reflexivity|]); read_flags; reflexivity.
  - do 8 (try peel H); cbn [String.length] in Hlen; try lia;
      (split; [reflexivity|]); read_flags; reflexivity.
Qed.

(** The theorem at [--data]. *)
Lemma abbreviations_accepted_witness :
  parse_optional ap "--data" = Flag dataset_option "--dataset" None
  /\ args_of ["--data"; "faces"] = args_of ["--dataset"; "faces"].
Proof.
  exact (proj1 (abbreviations_accepted "--data" "faces"
                  ltac:(cbn; lia) eq_refl) eq_refl).
Defined.

End CliExtra.
